(** * Orismologer: a shallow embedding of the translation engine

    The development follows the Go packages of the repository:
    - [GoStrings]: the functions of Go's [strings] package the code calls;
    - [octree]: the path tree ([octree/octree.go] and its adjacency list);
    - [oparse]: the expression AST and its evaluator ([oparse/parser.go]);
    - [orismologer]: the engine ([orismologer.go]): vendor filter, variable
      resolution and selection among alternative expressions.

    Go strings are byte strings and are modelled by [string]; Go maps by
    [gmap]; [float64] by the kernel's binary64 floats. *)

From Stdlib Require Import ZArith Lia Ascii String Floats Uint63 DecimalString.
From stdpp Require Import base option list gmap strings.

#[local] Set Warnings "-register-all".

(** ** Go's [strings] package *)

Module GoStrings.

(** [strings.HasPrefix(s, prefix)]. *)
Fixpoint HasPrefix (s prefix : string) {struct prefix} : bool :=
  match prefix with
  | EmptyString => true
  | String c prefix' =>
      match s with
      | EmptyString => false
      | String d s' => if Ascii.eqb c d then HasPrefix s' prefix' else false
      end
  end.

(** [strings.Contains(s, substr)]: some tail of [s] starts with [substr]. *)
Fixpoint Contains (s substr : string) : bool :=
  HasPrefix s substr ||
  match s with
  | EmptyString => false
  | String _ s' => Contains s' substr
  end.

(** [strings.HasSuffix(s, suffix)]: some tail of [s] is [suffix]. *)
Fixpoint HasSuffix (s suffix : string) : bool :=
  String.eqb s suffix ||
  match s with
  | EmptyString => false
  | String _ s' => HasSuffix s' suffix
  end.

(** [strings.TrimSuffix(s, suffix)]: [s[:len(s)-len(suffix)]] when [s] ends
    with [suffix], [s] otherwise. *)
Definition TrimSuffix (s suffix : string) : string :=
  if HasSuffix s suffix
  then String.substring 0 (String.length s - String.length suffix) s
  else s.

(** [strings.Split(s, sep)]: [split_byte c s] cuts [s] at every byte [c].
    The code splits at [pathSep] only, and [Split] is [strings.Split] for a
    separator of one byte; other separators are left uncut. *)
Fixpoint split_byte (c : ascii) (s : string) : list string :=
  match s with
  | EmptyString => [EmptyString]
  | String d s' =>
      if Ascii.eqb d c then EmptyString :: split_byte c s'
      else match split_byte c s' with
           | [] => [String d EmptyString]
           | w :: ws => String d w :: ws
           end
  end.

Definition Split (s sep : string) : list string :=
  match sep with
  | String c EmptyString => split_byte c s
  | _ => [s]
  end.

(** [strings.Join(elems, sep)]. *)
Fixpoint Join (elems : list string) (sep : string) : string :=
  match elems with
  | [] => ""
  | [a] => a
  | a :: rest => a +:+ sep +:+ Join rest sep
  end.

(** [strings.Replace(s, old, "", -1)] for [old] of one byte: every such byte
    is dropped. *)
Fixpoint remove_byte (c : ascii) (s : string) : string :=
  match s with
  | EmptyString => EmptyString
  | String d s' => if Ascii.eqb d c then remove_byte c s' else String d (remove_byte c s')
  end.

End GoStrings.

(** ** Errors

    Go's [error] values, one constructor per [fmt.Errorf]/[errors.New] site. *)

Inductive error : Type :=
  (* octree *)
  | ErrInvalidPath (path : string)
  | ErrExpandPath (cause : error)
  | ErrNoSuchParent (child parent : string)
  | ErrGetPayloadNoNode (node : string)
  | ErrPayloadMissing (node : string)
  | ErrSetPayloadNoNode (node : string)
  | ErrChildrenNoNode (parent : string)
  (* oparse *)
  | ErrDivisionByZero
  | ErrUnsupportedStringOperator (op : string)
  | ErrUnsupportedType
  | ErrNoSuchVariable (name : string)
  | ErrCannotCast (name : string)
  | ErrEval (cause : error)
  | ErrFunction (msg : string)
  | ErrParse (input : string)
  (* orismologer *)
  | ErrFunctionNotDefined (functionName : string)
  | ErrUnresolvableNocPath (pathName vendor : string)
  | ErrResolveFailed (pathName target : string) (cause : error)
  | ErrSubTransformation (variable : string) (cause : error)
  | ErrUndefined (variable : string)
  | ErrDuplicateTransformation (name : string)
  | ErrNoneEvaluable (transformationName : string)
  | ErrNoTransformationIdentifier (openConfigPath : string) (cause : error)
  | ErrTransformationNotFound (transformationName openConfigPath : string).

(** ** Package [octree] *)

Module octree.
Import GoStrings.

Definition pathSep : string := "/".
Definition RootName : string := "root".

(** [normalizePath]. *)
Definition normalizePath (path : string) : error + string :=
  if String.eqb path pathSep then inr RootName
  else if Contains path (pathSep +:+ pathSep) then inl (ErrInvalidPath path)
  else
    let path := if HasSuffix path pathSep then TrimSuffix path pathSep else path in
    if HasPrefix path pathSep then inr (RootName +:+ path)
    else inr path.

(** [expandPath]. *)
Definition expandPath (path : string) : error + list string :=
  match normalizePath path with
  | inl err => inl (ErrExpandPath err)
  | inr path => inr (Split path pathSep)
  end.

(** The messages of [mappings.proto] the tree stores. The generated Go
    types are not part of the sources at hand; the fields are those the
    code reads through its getters. *)
Record OpenConfigPath := { path : string; revisions : list string }.

Inductive OpenConfigNode : Type :=
  mkOpenConfigNode (subpath : OpenConfigPath) (bind : string)
                   (children : list OpenConfigNode).

Definition GetSubpath (n : OpenConfigNode) : OpenConfigPath :=
  let 'mkOpenConfigNode s _ _ := n in s.
Definition GetBind (n : OpenConfigNode) : string :=
  let 'mkOpenConfigNode _ b _ := n in b.
Definition GetChildren (n : OpenConfigNode) : list OpenConfigNode :=
  let 'mkOpenConfigNode _ _ c := n in c.

(** *** The adjacency list ([AdjList]) *)

Record AdjList := {
  nodes : list string;
  edges : gmap string (list string);
  weight : gmap (string * string) Z
}.

Definition NewAdjList : AdjList :=
  {| nodes := []; edges := ∅; weight := ∅ |}.

(** [AddNode]: nothing when the node is already a key of [edges]. *)
Definition AddNode (g : AdjList) (n : string) : AdjList :=
  match edges g !! n with
  | Some _ => g
  | None => {| nodes := nodes g ++ [n];
               edges := <[n := []]> (edges g);
               weight := weight g |}
  end.

(** [g.edges[a]]: a missing key reads as the empty slice. *)
Definition Neighbors (g : AdjList) (a : string) : list string :=
  default [] (edges g !! a).

Definition AddWeightedEdge (g : AdjList) (a z : string) (w : Z) : AdjList :=
  let g := AddNode g a in
  let g := AddNode g z in
  let g := {| nodes := nodes g; edges := edges g;
              weight := <[(a, z) := w]> (weight g) |} in
  if existsb (String.eqb z) (Neighbors g a) then g
  else {| nodes := nodes g;
          edges := <[a := Neighbors g a ++ [z]]> (edges g);
          weight := weight g |}.

Definition AddEdge (g : AdjList) (a z : string) : AdjList :=
  AddWeightedEdge g a z 1.

Definition Nodes (g : AdjList) : list string := nodes g.
Definition Edges (g : AdjList) : gmap string (list string) := edges g.

(** *** The tree ([OcTree])

    The Go methods mutate the tree through a pointer receiver; here each
    returns the new tree next to its result. *)

Record OcTree := {
  graph : AdjList;
  payloads : gmap string OpenConfigNode
}.

(** [IsValid]. *)
Definition IsValid (t : OcTree) (path : string) : bool :=
  match normalizePath path with
  | inl _ => false
  | inr path => bool_decide (is_Some (Edges (graph t) !! path))
  end.

(** [addChild]. *)
Definition addChild (t : OcTree) (parent child : string) : OcTree * option error :=
  if negb (IsValid t parent) then (t, Some (ErrNoSuchParent child parent))
  else ({| graph := AddEdge (graph t) parent child; payloads := payloads t |}, None).

(** [children]. *)
Definition children (t : OcTree) (parent : string) : error + list string :=
  if negb (IsValid t parent) then inl (ErrChildrenNoNode parent)
  else inr (Neighbors (graph t) parent).

(** [getPayload]. *)
Definition getPayload (t : OcTree) (node : string) : error + OpenConfigNode :=
  if negb (IsValid t node) then inl (ErrGetPayloadNoNode node)
  else match payloads t !! node with
       | Some val => inr val
       | None => inl (ErrPayloadMissing node)
       end.

(** [setPayload]. *)
Definition setPayload (t : OcTree) (node : string) (payload : OpenConfigNode)
  : OcTree * option error :=
  if negb (IsValid t node) then (t, Some (ErrSetPayloadNoNode node))
  else ({| graph := graph t; payloads := <[node := payload]> (payloads t) |}, None).

(** The loop of [build] over the segments of the subpath: it returns the
    tree and the last [fullPath]. The error of [addChild] is dropped, as in
    the code. *)
Fixpoint build_path (t : OcTree) (parent fullPath : string) (subpath : list string)
  : OcTree * string :=
  match subpath with
  | [] => (t, fullPath)
  | node :: rest =>
      let fullPath := fullPath +:+ pathSep +:+ node in
      let t := fst (addChild t parent fullPath) in
      build_path t fullPath fullPath rest
  end.

(** [build]. *)
Fixpoint build (t : OcTree) (parent : string) (current : OpenConfigNode)
  : OcTree * option error :=
  match expandPath (path (GetSubpath current)) with
  | inl err => (t, Some err)
  | inr subpath =>
      let '(parent, subpath) :=
        match subpath with
        | first :: rest =>
            if String.eqb first RootName then (RootName, rest) else (parent, subpath)
        | [] => (parent, subpath)
        end in
      let '(t, fullPath) := build_path t parent parent subpath in
      match setPayload t fullPath current with
      | (t, Some err) => (t, Some err)
      | (t, None) =>
          (fix build_children (t : OcTree) (cs : list OpenConfigNode)
             : OcTree * option error :=
             match cs with
             | [] => (t, None)
             | child :: cs' =>
                 match build t fullPath child with
                 | (t, Some err) => (t, Some err)
                 | (t, None) => build_children t cs'
                 end
             end) t
            (let 'mkOpenConfigNode _ _ cs := current in cs)
      end
  end.

(** The messages [Mappings] holds: the top-level nodes. *)
Definition Mappings := list OpenConfigNode.

(** [NewTree]. *)
Definition NewTree (mappings : Mappings) : OcTree * option error :=
  let t := {| graph := AddNode NewAdjList RootName; payloads := ∅ |} in
  (fix loop (t : OcTree) (ns : list OpenConfigNode) : OcTree * option error :=
     match ns with
     | [] => (t, None)
     | node :: ns' =>
         match build t RootName node with
         | (t, Some err) => (t, Some err)
         | (t, None) => loop t ns'
         end
     end) t mappings.

(** The declaration [{subpath:"/a"}] with the child
    [{subpath:"b/c", bind:"r"}]. *)
Definition abc_mappings : Mappings :=
  [mkOpenConfigNode {| path := "/a"; revisions := [] |} ""
     [mkOpenConfigNode {| path := "b/c"; revisions := [] |} "r" []]].

(** [GetTransformationIdentifier]. *)
Definition GetTransformationIdentifier (t : OcTree) (path : string) : error + string :=
  match normalizePath path with
  | inl err => inl err
  | inr node =>
      match getPayload t node with
      | inl err => inl err
      | inr payload => inr (GetBind payload)
      end
  end.

(** The loop of [build] over the children of a node, by name. *)
Fixpoint build_children (t : OcTree) (fullPath : string) (cs : list OpenConfigNode)
  : OcTree * option error :=
  match cs with
  | [] => (t, None)
  | child :: cs' =>
      match build t fullPath child with
      | (t, Some err) => (t, Some err)
      | (t, None) => build_children t fullPath cs'
      end
  end.

(** The loop of [NewTree] over the top-level nodes, by name. *)
Definition build_nodes (t : OcTree) (ns : list OpenConfigNode) : OcTree * option error :=
  build_children t RootName ns.

(** [joinPath]. *)
Definition joinPath (path : list string) : string := Join path pathSep.

(** [Weight]: a missing key of the map reads as 0. *)
Definition Weight (g : AdjList) (a z : string) : Z :=
  default 0%Z (weight g !! (a, z)).

(** What [AddNode] and [AddWeightedEdge] keep of an [AdjList]: [nodes] lists
    the keys of [edges], each once, and every adjacency list names nodes of
    the graph, each once. *)
Definition wf_graph (g : AdjList) : Prop :=
  NoDup (nodes g) /\
  (forall n, n ∈ nodes g <-> is_Some (edges g !! n)) /\
  (forall a ns, edges g !! a = Some ns ->
                NoDup ns /\ forall z, z ∈ ns -> is_Some (edges g !! z)).

(** The three marks of a canonical path. *)
Definition canonical (q : string) : Prop :=
  Contains q "//" = false /\ HasPrefix q "/" = false /\ HasSuffix q "/" = false.

(** A path segment: not empty, and without separator. *)
Definition segment (s : string) : Prop :=
  s <> "" /\ Contains s pathSep = false.

End octree.

(** ** Package [oparse] *)

(** What the evaluator takes from Go's library: [fmt.Sprint] on a [float64]
    and [math.Pow]. *)
Class GoRuntime := {
  Sprint_float64 : float -> string;
  Pow : float -> float -> float
}.

Module oparse.

(** [Operator] and its four constants. *)
Inductive Operator : Type := OpMul | OpDiv | OpAdd | OpSub.

(** The AST. Every pointer field the grammar requires is a plain field;
    [Expression.Left] is optional, the one field the code itself tests for
    [nil]; the alternatives of [Value] are its constructors (a parsed [Value]
    has exactly one of its fields set); an [Arg] keeps its expression and
    its separator. *)
Inductive Expression : Type :=
  mkExpression (Left : option Term) (Right : list OpTerm)
with Term : Type :=
  mkTerm (Left : Factor) (Right : list OpFactor)
with OpTerm : Type :=
  mkOpTerm (Op : Operator) (T : Term)
with Factor : Type :=
  mkFactor (Base : Value) (Exponent : option Value)
with OpFactor : Type :=
  mkOpFactor (Op : Operator) (F : Factor)
with Value : Type :=
  | Value_Number (n : float)
  | Value_StrLiteral (s : string)
  | Value_Function (f : Function)
  | Value_Variable (name : string)
  | Value_Subexpression (e : Expression)
with Function : Type :=
  mkFunction (Name : string) (Args : list Arg)
with Arg : Type :=
  mkArg (V : Expression) (Separator : option string).

(** A Go [interface{}] as the evaluator can tell them apart: [int],
    [float64], [string], [nil], and a value of any other dynamic type, kept
    by the text [fmt.Sprint] prints for it. *)
Inductive value : Type :=
  | VInt (i : Z)
  | VFloat (f : float)
  | VString (s : string)
  | VNil
  | VOther (text : string).

(** [Context]. *)
Abbreviation Context := (gmap string value).

(** [FunctionCaller]. *)
Definition FunctionCaller : Type := string -> list value -> error + value.

(** How an evaluation ends without a Go return. *)
Inductive crash : Type :=
  | LogFatal                   (* [log.Fatal]: the process exits *)
  | PanicInterfaceConversion   (* a failed type assertion [x.(float64)] *)
  | PanicNilDereference.       (* a method called on a [nil] AST pointer *)

(** A Go [(T, error)] return, or a crash. *)
Inductive result (A : Type) : Type :=
  | Ok (a : A)
  | Err (e : error)
  | Crash (c : crash).
Arguments Ok {A} a.
Arguments Err {A} e.
Arguments Crash {A} c.

Definition bind {A B} (r : result A) (k : A -> result B) : result B :=
  match r with
  | Ok a => k a
  | Err e => Err e
  | Crash c => Crash c
  end.

Notation "'let*' x ':=' r 'in' k" := (bind r (fun x => k))
  (at level 10, x name, r at level 100, k at level 200).

Definition isInt (v : value) : bool := match v with VInt _ => true | _ => false end.
Definition isString (v : value) : bool := match v with VString _ => true | _ => false end.
Definition isFloat (v : value) : bool := match v with VFloat _ => true | _ => false end.

(** [Operator.String]. *)
Definition Operator_String (o : Operator) : string :=
  match o with OpMul => "*" | OpDiv => "/" | OpSub => "-" | OpAdd => "+" end.

(** The conversion [float64(i)] of a Go [int]. *)
Definition float64_of_int (i : Z) : float :=
  if (i <? 0)%Z then
    if (i =? - 2 ^ 63)%Z
    then PrimFloat.opp (PrimFloat.mul (of_uint63 (Uint63.of_Z (2 ^ 62))) 2)
    else PrimFloat.opp (of_uint63 (Uint63.of_Z (- i)))
  else of_uint63 (Uint63.of_Z i).

Section Eval.
Context `{RT : GoRuntime}.

(** [fmt.Sprint] on one operand. *)
Definition Sprint (v : value) : string :=
  match v with
  | VInt i => NilZero.string_of_int (Z.to_int i)
  | VFloat f => Sprint_float64 f
  | VString s => s
  | VNil => "<nil>"
  | VOther text => text
  end.

(** [Operator.eval]. *)
Definition Operator_eval (o : Operator) (l r : value) : result value :=
  if isInt l || isInt r then Crash LogFatal
  else
    match l, r with
    | VFloat lFloat, VFloat rFloat =>
        match o with
        | OpMul => Ok (VFloat (PrimFloat.mul lFloat rFloat))
        | OpDiv =>
            if PrimFloat.eqb rFloat 0 then Err ErrDivisionByZero
            else Ok (VFloat (PrimFloat.div lFloat rFloat))
        | OpAdd => Ok (VFloat (PrimFloat.add lFloat rFloat))
        | OpSub => Ok (VFloat (PrimFloat.sub lFloat rFloat))
        end
    | _, _ =>
        if isString l || isString r then
          match o with
          | OpAdd => Ok (VString (Sprint l +:+ Sprint r))
          | _ => Err (ErrUnsupportedStringOperator (Operator_String o))
          end
        else Err ErrUnsupportedType
    end.

Variable ctx : Context.
Variable caller : FunctionCaller.

(** The variable case of [Value.eval]: cast to float, then string. *)
Definition eval_Variable (name : string) : result value :=
  match ctx !! name with
  | None => Err (ErrNoSuchVariable name)
  | Some (VInt valueInt) => Ok (VFloat (float64_of_int valueInt))
  | Some (VFloat valueFloat) => Ok (VFloat valueFloat)
  | Some (VString valueString) => Ok (VString valueString)
  | Some _ => Err (ErrCannotCast name)
  end.

(** The call at the end of [Function.eval]: an [int] result becomes a
    float. *)
Definition call_Function (name : string) (args : list value) : result value :=
  match caller name args with
  | inl err => Err err
  | inr (VInt resultInt) => Ok (VFloat (float64_of_int resultInt))
  | inr res => Ok res
  end.

(** The [eval] methods of the AST, from [Expression.eval] down. *)
Fixpoint Expression_eval (e : Expression) : result value :=
  match e with
  | mkExpression None _ => Crash PanicNilDereference
  | mkExpression (Some first) rest =>
      let* l := Term_eval first in
      (fix loop (rs : list OpTerm) (l : value) : result value :=
         match rs with
         | [] => Ok l
         | mkOpTerm op t :: rs' =>
             let* rEval := Term_eval t in
             let* l := Operator_eval op l rEval in
             loop rs' l
         end) rest l
  end
with Term_eval (t : Term) : result value :=
  match t with
  | mkTerm first rest =>
      let* n := Factor_eval first in
      (fix loop (rs : list OpFactor) (n : value) : result value :=
         match rs with
         | [] => Ok n
         | mkOpFactor op f :: rs' =>
             let* rFactorEval := Factor_eval f in
             let* n := Operator_eval op n rFactorEval in
             loop rs' n
         end) rest n
  end
with Factor_eval (f : Factor) : result value :=
  match f with
  | mkFactor base exponent =>
      let* b := Value_eval base in
      match exponent with
      | Some exponent =>
          let* exponentEval := Value_eval exponent in
          match b, exponentEval with
          | VFloat x, VFloat y => Ok (VFloat (Pow x y))
          | _, _ => Crash PanicInterfaceConversion
          end
      | None => Ok b
      end
  end
with Value_eval (v : Value) : result value :=
  match v with
  | Value_Number n => Ok (VFloat n)
  | Value_StrLiteral s => Ok (VString s)
  | Value_Variable name => eval_Variable name
  | Value_Function f => Function_eval f
  | Value_Subexpression e => Expression_eval e
  end
with Function_eval (f : Function) : result value :=
  match f with
  | mkFunction name fargs =>
      let* args :=
        (fix loop (fargs : list Arg) (args : list value) : result (list value) :=
           match fargs with
           | [] => Ok args
           | mkArg v _ :: fargs' =>
               let* argEval := Expression_eval v in
               loop fargs' (args ++ [argEval])
           end) fargs [] in
      call_Function name args
  end.

(** The loops of [Expression.eval], [Term.eval] and [Function.eval], by
    name. *)
Fixpoint Expression_loop (rs : list OpTerm) (l : value) : result value :=
  match rs with
  | [] => Ok l
  | mkOpTerm op t :: rs' =>
      let* rEval := Term_eval t in
      let* l := Operator_eval op l rEval in
      Expression_loop rs' l
  end.

Fixpoint Term_loop (rs : list OpFactor) (n : value) : result value :=
  match rs with
  | [] => Ok n
  | mkOpFactor op f :: rs' =>
      let* rFactorEval := Factor_eval f in
      let* n := Operator_eval op n rFactorEval in
      Term_loop rs' n
  end.

Fixpoint Function_args (fargs : list Arg) (args : list value) : result (list value) :=
  match fargs with
  | [] => Ok args
  | mkArg v _ :: fargs' =>
      let* argEval := Expression_eval v in
      Function_args fargs' (args ++ [argEval])
  end.

(** [Eval]: the error of [Expression.eval] is wrapped. *)
Definition Eval (expression : Expression) : result value :=
  match Expression_eval expression with
  | Ok res => Ok res
  | Err err => Err (ErrEval err)
  | Crash c => Crash c
  end.

End Eval.

(** The [identifiers] methods: variables and function names, in source
    order. *)
Fixpoint Identifiers (e : Expression) : list string * list string :=
  match e with
  | mkExpression first rest =>
      let start := match first with
                   | Some first => Term_identifiers first
                   | None => ([], [])
                   end in
      (fix loop (rs : list OpTerm) (acc : list string * list string) :=
         match rs with
         | [] => acc
         | mkOpTerm _ t :: rs' =>
             let '(vs, fs) := Term_identifiers t in
             loop rs' (acc.1 ++ vs, acc.2 ++ fs)
         end) rest start
  end
with Term_identifiers (t : Term) : list string * list string :=
  match t with
  | mkTerm first rest =>
      (fix loop (rs : list OpFactor) (acc : list string * list string) :=
         match rs with
         | [] => acc
         | mkOpFactor _ f :: rs' =>
             let '(vs, fs) := Factor_identifiers f in
             loop rs' (acc.1 ++ vs, acc.2 ++ fs)
         end) rest (Factor_identifiers first)
  end
with Factor_identifiers (f : Factor) : list string * list string :=
  match f with
  | mkFactor base exponent =>
      let '(variables, functions) := Value_identifiers base in
      match exponent with
      | Some exponent =>
          let '(expVars, expFuncs) := Value_identifiers exponent in
          (variables ++ expVars, functions ++ expFuncs)
      | None => (variables, functions)
      end
  end
with Value_identifiers (v : Value) : list string * list string :=
  match v with
  | Value_Variable name => ([name], [])
  | Value_Function f => Function_identifiers f
  | Value_Subexpression e => Identifiers e
  | _ => ([], [])
  end
with Function_identifiers (f : Function) : list string * list string :=
  match f with
  | mkFunction name fargs =>
      (fix loop (fargs : list Arg) (acc : list string * list string) :=
         match fargs with
         | [] => acc
         | mkArg v _ :: fargs' =>
             let '(argVars, argFuncs) := Identifiers v in
             loop fargs' (acc.1 ++ argVars, acc.2 ++ argFuncs)
         end) fargs ([], [name])
  end.

(** The loops of the [identifiers] methods, by name. *)
Fixpoint OpTerms_identifiers (rs : list OpTerm) (acc : list string * list string)
  : list string * list string :=
  match rs with
  | [] => acc
  | mkOpTerm _ t :: rs' =>
      let '(vs, fs) := Term_identifiers t in
      OpTerms_identifiers rs' (acc.1 ++ vs, acc.2 ++ fs)
  end.

Fixpoint OpFactors_identifiers (rs : list OpFactor) (acc : list string * list string)
  : list string * list string :=
  match rs with
  | [] => acc
  | mkOpFactor _ f :: rs' =>
      let '(vs, fs) := Factor_identifiers f in
      OpFactors_identifiers rs' (acc.1 ++ vs, acc.2 ++ fs)
  end.

Fixpoint Args_identifiers (fargs : list Arg) (acc : list string * list string)
  : list string * list string :=
  match fargs with
  | [] => acc
  | mkArg v _ :: fargs' =>
      let '(argVars, argFuncs) := Identifiers v in
      Args_identifiers fargs' (acc.1 ++ argVars, acc.2 ++ argFuncs)
  end.

(** Two contexts and two callers agree on the variables and the function
    names of [ids]. *)
Definition agree (ctx ctx' : Context) (caller caller' : FunctionCaller)
    (ids : list string * list string) : Prop :=
  (forall x, In x ids.1 -> ctx !! x = ctx' !! x) /\
  (forall f, In f ids.2 -> forall args, caller f args = caller' f args).

(** The field [Value] of an [Arg]. *)
Definition Arg_Value (a : Arg) : Expression := let 'mkArg v _ := a in v.

(** The parser the grammar tags build is participle's, a library: what
    [ParseString] makes of an input is taken as given. *)
Class Participle := { ParseString : string -> option Expression }.

(** [Parse]. *)
Definition Parse `{PP : Participle} (input : string) : error + Expression :=
  match ParseString input with
  | Some expression => inr expression
  | None => inl (ErrParse input)
  end.

End oparse.

(** ** Package [orismologer] *)

Module orismologer.
Import GoStrings oparse.

(** The messages [NocPath], [Transformation] and [VendorOids], by the
    getters the engine calls. *)
Record NocPath := {
  NocPath_GetBind : string;
  NocPath_GetOids : list string;
  NocPath_GetSamples : list string
}.

Record Transformation := {
  Transformation_GetBind : string;
  Transformation_GetExpressions : list string;
  Transformation_GetNocPaths : list NocPath
}.

Record VendorOids := {
  GetVendorRoot : string;
  GetVendors : gmap string string
}.

Abbreviation transformationMap := (gmap string Transformation).

(** The interface [functionLibrary]. *)
Record functionLibrary := {
  Contains : string -> bool;
  Call : FunctionCaller
}.

(** The struct [Orismologer]. *)
Record Orismologer := {
  mappings : octree.OcTree;
  transformations : transformationMap;
  vendorInfo : VendorOids;
  nocPathResolver : NocPath -> string -> error + value;
  functions : functionLibrary
}.

(** [makeTransformationMap]. *)
Fixpoint makeTransformationMap_loop (ts : list Transformation) (m : transformationMap)
  : error + transformationMap :=
  match ts with
  | [] => inr m
  | transformation :: ts' =>
      let name := Transformation_GetBind transformation in
      match m !! name with
      | Some _ => inl (ErrDuplicateTransformation name)
      | None => makeTransformationMap_loop ts' (<[name := transformation]> m)
      end
  end.

Definition makeTransformationMap (ts : list Transformation) : error + transformationMap :=
  makeTransformationMap_loop ts ∅.

(** What an evaluation does besides returning: the expression strings it
    hands to the parser and the calls of the NocPath resolver, in order. *)
Inductive event : Type :=
  | EvParse (expressionString : string)
  | EvResolve (nocPath : NocPath) (target : string).

(** The run of an engine function: its trace, and its return, [None] when
    the recursion did not end within the fuel given. *)
Definition run (A : Type) : Type := option (result A) * list event.

Definition after {A} (tr : list event) (r : run A) : run A := (r.1, tr ++ r.2).

(** The loop of [canResolve] over the OIDs of a NocPath. *)
Fixpoint canResolve_oids (vendorRoot : string) (vendors : gmap string string)
    (vendor : string) (oids : list string) : bool :=
  match oids with
  | [] => false
  | oid :: oids' =>
      if negb (HasPrefix oid vendorRoot) then true
      else match vendors !! vendor with
           | None => false
           | Some vendorOid =>
               if HasPrefix oid (vendorRoot +:+ "." +:+ vendorOid) then true
               else canResolve_oids vendorRoot vendors vendor oids'
           end
  end.

(** [canResolve]. *)
Definition canResolve (o : Orismologer) (nocPath : NocPath) (vendor : string) : bool :=
  canResolve_oids (GetVendorRoot (vendorInfo o)) (GetVendors (vendorInfo o))
                  vendor (NocPath_GetOids nocPath).

(** Whether one OID is admitted for a vendor of sub-identifier [vendorOid],
    as the body of the loop tests it. *)
Definition admits (vendorRoot vendorOid oid : string) : bool :=
  negb (HasPrefix oid vendorRoot) || HasPrefix oid (vendorRoot +:+ "." +:+ vendorOid).

(** A trace all of whose resolver calls are on NocPaths the vendor filter
    admits. *)
Definition admitted_event (o : Orismologer) (vendor : string) (ev : event) : Prop :=
  match ev with
  | EvResolve nocPath _ => canResolve o nocPath vendor = true
  | EvParse _ => True
  end.

Definition admitted_trace (o : Orismologer) (vendor : string) (tr : list event) : Prop :=
  Forall (admitted_event o vendor) tr.

(** [resolve], the resolver [newOrismologer] installs. *)
Definition resolve (nocPath : NocPath) (target : string) : error + value :=
  match NocPath_GetSamples nocPath with
  | sample :: _ => inr (VString sample)
  | [] => inr (VString "dummy")
  end.

(** [handleNocPath]. *)
Definition handleNocPath (o : Orismologer) (nocPath : NocPath) (target vendor : string)
  : (error + value) * list event :=
  let pathName := NocPath_GetBind nocPath in
  if negb (canResolve o nocPath vendor)
  then (inl (ErrUnresolvableNocPath pathName vendor), [])
  else match nocPathResolver o nocPath target with
       | inl err => (inl (ErrResolveFailed pathName target err), [EvResolve nocPath target])
       | inr val => (inr val, [EvResolve nocPath target])
       end.

(** [getNocPaths]. *)
Definition getNocPaths (transformation : Transformation) : gmap string NocPath :=
  fold_left
    (fun paths nocPath =>
       let pathName := NocPath_GetBind nocPath in
       if String.eqb pathName "" then paths else <[pathName := nocPath]> paths)
    (Transformation_GetNocPaths transformation) ∅.

Section Engine.
Context `{RT : GoRuntime} `{PP : Participle}.

(** [parseAndValidateExpression]. *)
Definition parseAndValidateExpression (o : Orismologer) (expressionString : string)
  : error + (Expression * list string * list string) :=
  match Parse expressionString with
  | inl err => inl err
  | inr expression =>
      let '(variables, functionNames) := Identifiers expression in
      match List.find (fun functionName => negb (Contains (functions o) functionName))
                      functionNames with
      | Some functionName => inl (ErrFunctionNotDefined functionName)
      | None => inr (expression, variables, functionNames)
      end
  end.

(** [eval] and [evalVariables] call each other; [rec] stands for the
    call of [eval] on a sub-transformation. *)
Section Body.
Variable rec : Transformation -> string -> string -> run value.
Variable o : Orismologer.
Variables target vendor : string.

(** The loop of [evalVariables], [values] being the map built so far. *)
Fixpoint evalVariables_loop (nocPaths : gmap string NocPath)
    (variables : list string) (values : Context) : run Context :=
  match variables with
  | [] => (Some (Ok values), [])
  | variable :: variables' =>
      match nocPaths !! variable with
      | Some nocPath =>
          match handleNocPath o nocPath target vendor with
          | (inl err, tr) => (Some (Err err), tr)
          | (inr val, tr) =>
              after tr (evalVariables_loop nocPaths variables' (<[variable := val]> values))
          end
      | None =>
          match transformations o !! variable with
          | Some transformation =>
              match rec transformation target vendor with
              | (None, tr) => (None, tr)
              | (Some (Ok val), tr) =>
                  after tr (evalVariables_loop nocPaths variables' (<[variable := val]> values))
              | (Some (Err err), tr) => (Some (Err (ErrSubTransformation variable err)), tr)
              | (Some (Crash c), tr) => (Some (Crash c), tr)
              end
          | None => (Some (Err (ErrUndefined variable)), [])
          end
      end
  end.

Definition evalVariables_with (variables : list string) (nocPaths : gmap string NocPath)
  : run Context :=
  evalVariables_loop nocPaths variables ∅.

(** The loop of [eval] over the expressions of the transformation. *)
Fixpoint eval_expressions (transformationName : string)
    (nocPaths : gmap string NocPath) (expressions : list string) : run value :=
  match expressions with
  | [] => (Some (Err (ErrNoneEvaluable transformationName)), [])
  | expressionString :: expressions' =>
      after [EvParse expressionString]
        match parseAndValidateExpression o expressionString with
        | inl err => eval_expressions transformationName nocPaths expressions'
        | inr (expression, variables, _) =>
            match evalVariables_with variables nocPaths with
            | (None, tr) => (None, tr)
            | (Some (Crash c), tr) => (Some (Crash c), tr)
            | (Some (Err err), tr) =>
                after tr (eval_expressions transformationName nocPaths expressions')
            | (Some (Ok values), tr) =>
                (Some (Eval values (Call (functions o)) expression), tr)
            end
        end
  end.

Definition eval_with (transformation : Transformation) : run value :=
  eval_expressions (Transformation_GetBind transformation)
                   (getNocPaths transformation)
                   (Transformation_GetExpressions transformation).
End Body.

(** [eval]: [fuel] bounds the depth of the calls through
    sub-transformations, which the code leaves unbounded. *)
Fixpoint eval (fuel : nat) (o : Orismologer) (transformation : Transformation)
    (target vendor : string) : run value :=
  match fuel with
  | 0 => (None, [])
  | S fuel' =>
      eval_with (fun t target vendor => eval fuel' o t target vendor)
                o target vendor transformation
  end.

(** [evalVariables], as [eval] at [S fuel] calls it. *)
Definition evalVariables (fuel : nat) (o : Orismologer) (variables : list string)
    (nocPaths : gmap string NocPath) (target vendor : string) : run Context :=
  evalVariables_with (fun t target vendor => eval fuel o t target vendor)
                     o target vendor variables nocPaths.

(** [Eval], the exported entry point. *)
Definition Eval (fuel : nat) (o : Orismologer) (openConfigPath target vendor : string)
  : run value :=
  match octree.GetTransformationIdentifier (mappings o) openConfigPath with
  | inl err => (Some (Err (ErrNoTransformationIdentifier openConfigPath err)), [])
  | inr transformationName =>
      match transformations o !! transformationName with
      | None => (Some (Err (ErrTransformationNotFound transformationName openConfigPath)), [])
      | Some transformation => eval fuel o transformation target vendor
      end
  end.



(** An alternative that [eval] abandons before evaluating it, with the
    resolver calls it made till then: it does not parse or validate, or one
    of its variables fails. *)
Definition abandoned (rec : Transformation -> string -> string -> run value)
    (o : Orismologer) (target vendor : string) (nocPaths : gmap string NocPath)
    (e : string) (tr : list event) : Prop :=
  (exists err, parseAndValidateExpression o e = inl err /\ tr = []) \/
  (exists expression variables functionNames err,
      parseAndValidateExpression o e = inr (expression, variables, functionNames) /\
      evalVariables_with rec o target vendor variables nocPaths = (Some (Err err), tr)).

(** The trace of a run of abandoned alternatives. *)
Fixpoint abandoned_trace (es : list string) (trs : list (list event)) : list event :=
  match es, trs with
  | e :: es', tr :: trs' => EvParse e :: tr ++ abandoned_trace es' trs'
  | _, _ => []
  end.

(** A resolver call as a request for [target] and [vendor] may make it: on
    an admitted NocPath, for that target. *)
Definition requested_event (o : Orismologer) (target vendor : string) (ev : event) : Prop :=
  match ev with
  | EvResolve nocPath target' => target' = target /\ canResolve o nocPath vendor = true
  | EvParse _ => True
  end.

(** [o] with other transformations. *)
Definition with_transformations (o : Orismologer) (ts : transformationMap) : Orismologer :=
  {| mappings := mappings o;
     transformations := ts;
     vendorInfo := vendorInfo o;
     nocPathResolver := nocPathResolver o;
     functions := functions o |}.

End Engine.

End orismologer.

(** ** Package [functions]

    What the package takes from Go's [strconv] and [time]; [int] has 64
    bits. [ParseUint] returns its value next to the text of its error, if
    any; [time_Parse] the text of its error or the time. *)

Class GoLibraries := {
  Atoi : string -> option Z;
  ParseFloat : string -> Z -> option float;
  ParseUint : string -> Z -> Z -> Z * option string;
  Time : Type;
  time_Unix : Z -> Z -> Time;
  time_Parse : string -> string -> string + Time;
  Time_Unix : Time -> Z;
  Time_UnixNano : Time -> Z
}.

Module functions.
Import GoStrings oparse.

(** The errors of the package, one constructor per [fmt.Errorf] site. *)
Inductive failure : Type :=
  | ErrNotString (v : value)
  | ErrNotInt (v : value)
  | ErrNotFloat (v : value)
  | ErrNotFormatted (format : string) (v : value)
  | ErrParsingTimestamp (v : value) (format cause : string)
  | ErrUnrecognisedUnit (units : string)
  | ErrFunctionUndefined (funcName : string)
  | ErrArguments (funcName : string) (numArgsExpected numArgs : nat)
  | ErrSecondNotError (funcName : string) (wrappedErr : value)
  | ErrResults (funcName : string).

(** The conversions [uint64(z)] and [int64(z)] of an integer, by
    wrap-around. *)
Definition uint64 (z : Z) : Z := (z mod 2 ^ 64)%Z.
Definition int64 (z : Z) : Z := ((z + 2 ^ 63) mod 2 ^ 64 - 2 ^ 63)%Z.

(** [time.RFC3339]. *)
Definition RFC3339 : string := "2006-01-02T15:04:05Z07:00".

(** A registered function, as [reflect] sees it: the types of its
    parameters, [interface{}] or [string], and what a call prints and
    returns, a list of values of which any may be an [error]. Variadic
    functions are left out; the logging of [Call] is not modelled. *)
Inductive paramType : Type := TInterface | TString.

Inductive output : Type :=
  | OutValue (v : value)
  | OutError (err : failure).

Record function := {
  In_ : list paramType;
  Call_ : list value -> list string * list output
}.

(** [Library]. *)
Abbreviation Library := (gmap string function).

(** What [reflect.Value.Call] demands of an argument wrapped by
    [reflect.ValueOf]: it is not the zero [Value], which [nil] wraps into,
    and its type is assignable to the type of the parameter. *)
Definition assignable (arg : value) (t : paramType) : bool :=
  match arg, t with
  | VNil, _ => false
  | _, TInterface => true
  | VString _, TString => true
  | _, TString => false
  end.

Fixpoint all_assignable (args : list value) (ts : list paramType) : bool :=
  match args, ts with
  | [], [] => true
  | arg :: args', t :: ts' => assignable arg t && all_assignable args' ts'
  | _, _ => false
  end.

(** How a call of the library ends: the two values [Call] returns, the
    second [None] for a [nil] error, or the panic of [reflect]. *)
Inductive outcome : Type :=
  | Returns (result : output) (err : option failure)
  | PanicReflectCall.

Section Implementations.
Context `{GL : GoLibraries}.

(** [toStr]. *)
Definition toStr (v : value) : failure + string :=
  match v with
  | VString result => inr result
  | _ => inl (ErrNotString v)
  end.

(** [toInt]. *)
Definition toInt (v : value) : failure + Z :=
  match (match toStr v with inr str => Atoi str | inl _ => None end) with
  | Some result => inr result
  | None =>
      match v with
      | VInt result => inr result
      | _ => inl (ErrNotInt v)
      end
  end.

(** [toFloat]. *)
Definition toFloat (v : value) : failure + float :=
  match (match toStr v with inr str => ParseFloat str 64 | inl _ => None end) with
  | Some result => inr result
  | None =>
      match v with
      | VFloat result => inr result
      | _ => inl (ErrNotFloat v)
      end
  end.

(** The constant [offset] of [timeSinceEpoch]. *)
Definition offset : Z := 2208988800.

(** The ["ntp"] case of [timeSinceEpoch], in [uint64] arithmetic: the lines
    printed and the time. The error of [ParseUint] is printed and the
    conversion goes on with the value returned with it. *)
Definition ntpTime (timeStamp : string) : list string * Time :=
  let timeStamp := remove_byte " " timeStamp in
  let '(ntp, err) := ParseUint timeStamp 16 64 in
  let printed := match err with Some text => [text] | None => [] end in
  let seconds := uint64 (Z.shiftr ntp 32 - offset) in
  let fractional := Z.land ntp 0x00000000ffffffff in
  let nanos := Z.shiftr (uint64 (fractional * 1000000000)) 32 in
  (printed, time_Unix (int64 seconds) (int64 nanos)).

(** The second [switch] of [timeSinceEpoch]; the division is Go's, which
    truncates. *)
Definition inUnits (t : Time) (units : string) : failure + Z :=
  if String.eqb units "s" then inr (Time_Unix t)
  else if String.eqb units "ms" then inr (Z.quot (Time_UnixNano t) 1000000)
  else if String.eqb units "ns" then inr (Time_UnixNano t)
  else inl (ErrUnrecognisedUnit units).

(** [timeSinceEpoch]: the lines it prints and its return. *)
Definition timeSinceEpoch (v : value) (format units : string)
  : list string * (failure + Z) :=
  match v with
  | VString timeStamp =>
      if String.eqb format "ntp" then
        let '(printed, t) := ntpTime timeStamp in
        (printed, inUnits t units)
      else
        let format := if String.eqb format "rfc3339" then RFC3339 else format in
        match time_Parse format timeStamp with
        | inl cause => ([], inl (ErrParsingTimestamp v format cause))
        | inr t => ([], inUnits t units)
        end
  | _ => ([], inl (ErrNotFormatted format v))
  end.

(** *** The library *)

(** [Contains]. *)
Definition Library_Contains (l : Library) (funcName : string) : bool :=
  match l !! funcName with Some _ => true | None => false end.

(** [getFunc]. *)
Definition getFunc (l : Library) (funcName : string) : failure + function :=
  if negb (Library_Contains l funcName) then inl (ErrFunctionUndefined funcName)
  else
    match l !! funcName with
    | Some f => inr f
    | None => inl (ErrFunctionUndefined funcName)
    end.

(** [unwrapOutput]. *)
Definition unwrapOutput (results : list output) (funcName : string) : outcome :=
  match results with
  | [result] => Returns result None
  | [result; wrappedErr] =>
      match wrappedErr with
      | OutValue VNil => Returns result None
      | OutError err => Returns result (Some err)
      | OutValue v => Returns (OutValue VNil) (Some (ErrSecondNotError funcName v))
      end
  | _ => Returns (OutValue VNil) (Some (ErrResults funcName))
  end.

(** [Call]: the lines printed and the outcome. *)
Definition Library_Call (l : Library) (funcName : string) (args : list value)
  : list string * outcome :=
  match getFunc l funcName with
  | inl err => ([], Returns (OutValue VNil) (Some err))
  | inr f =>
      let numArgsExpected := length (In_ f) in
      let numArgs := length args in
      if negb (numArgs =? numArgsExpected) then
        ([], Returns (OutValue VNil) (Some (ErrArguments funcName numArgsExpected numArgs)))
      else if all_assignable args (In_ f) then
        let '(printed, results) := Call_ f args in
        (printed, unwrapOutput results funcName)
      else ([], PanicReflectCall)
  end.

(** The two results of a Go function that returns [(T, error)], [zero]
    being what it returns with an error. *)
Definition results {T} (inject : T -> value) (zero : T) (r : failure + T) : list output :=
  match r with
  | inr result => [OutValue (inject result); OutValue VNil]
  | inl err => [OutValue (inject zero); OutError err]
  end.

(** [registry] and [NewLibrary]. *)
Definition registry : Library :=
  <["to_int" :=
      {| In_ := [TInterface];
         Call_ := fun args =>
           match args with
           | [v] => ([], results VInt 0%Z (toInt v))
           | _ => ([], [])
           end |}]>
  (<["to_str" :=
      {| In_ := [TInterface];
         Call_ := fun args =>
           match args with
           | [v] => ([], results VString "" (toStr v))
           | _ => ([], [])
           end |}]>
  (<["time_since_epoch" :=
      {| In_ := [TInterface; TString; TString];
         Call_ := fun args =>
           match args with
           | [v; VString format; VString units] =>
               let '(printed, r) := timeSinceEpoch v format units in
               (printed, results VInt 0%Z r)
           | _ => ([], [])
           end |}]> ∅)).

Definition NewLibrary : Library := registry.

End Implementations.

End functions.

(** ** Inputs of the examples *)

Module examples.
Import oparse.

(** A runtime to run the examples with: it prints the integral floats in
    [0, 10^6) in decimal, as [fmt.Sprint] does, and raises to natural
    exponents by repeated multiplication. *)
Definition natural (f : float) : option N :=
  match Prim2SF f with
  | S754_zero false => Some 0%N
  | S754_finite false m e =>
      if (0 <=? e)%Z then Some (Z.to_N (Z.pos m * 2 ^ e))
      else if (Z.pos m mod 2 ^ (- e) =? 0)%Z then Some (Z.to_N (Z.pos m / 2 ^ (- e)))
      else None
  | _ => None
  end.

Definition Sprint_integral (f : float) : string :=
  match natural f with
  | Some n => if (n <? 1000000)%N then NilZero.string_of_uint (N.to_uint n) else "?"
  | None => "?"
  end.

Definition Pow_natural (x y : float) : float :=
  match natural y with
  | Some n => N.iter n (PrimFloat.mul x) 1%float
  | None => nan
  end.

Definition runtime : GoRuntime :=
  {| Sprint_float64 := Sprint_integral; Pow := Pow_natural |}.

(** A caller that knows no function. *)
Definition no_caller : FunctionCaller :=
  fun name _ => inl (ErrFunction name).

(** The AST of a value standing alone as a term, and of a term standing
    alone as an expression. *)
Definition term_of (v : Value) : Term := mkTerm (mkFactor v None) [].
Definition expression_of (t : Term) : Expression := mkExpression (Some t) [].

(** ['The answer is ' + 41 + 1]. *)
Definition answer_411 : Expression :=
  mkExpression (Some (term_of (Value_StrLiteral "The answer is ")))
    [mkOpTerm OpAdd (term_of (Value_Number 41));
     mkOpTerm OpAdd (term_of (Value_Number 1))].

(** ['The answer is ' + (41 + 1)]. *)
Definition answer_42 : Expression :=
  mkExpression (Some (term_of (Value_StrLiteral "The answer is ")))
    [mkOpTerm OpAdd
       (term_of (Value_Subexpression
          (mkExpression (Some (term_of (Value_Number 41)))
             [mkOpTerm OpAdd (term_of (Value_Number 1))])))].

(** ['The answer is ' * 2]. *)
Definition answer_times_2 : Expression :=
  expression_of
    (mkTerm (mkFactor (Value_StrLiteral "The answer is ") None)
       [mkOpFactor OpMul (mkFactor (Value_Number 2) None)]).




(** ['a' ^ 2] and [2 ^ 'a']. *)
Definition string_to_the_2 : Factor :=
  mkFactor (Value_StrLiteral "a") (Some (Value_Number 2)).
Definition two_to_the_string : Factor :=
  mkFactor (Value_Number 2) (Some (Value_StrLiteral "a")).

(** [2 ^ 10]. *)
Definition two_to_the_10 : Factor :=
  mkFactor (Value_Number 2) (Some (Value_Number 10)).

(** The vendor table of the engine's tests. *)
Import orismologer.

Definition test_vendorInfo : VendorOids :=
  {| GetVendorRoot := "1.3.6.1.4.1";
     GetVendors := <["cisco" := "9"]> (<["aruba" := "14823"]> ∅) |}.

(** A library that knows every function and answers 1, like the caller of
    the parser's tests. *)
Definition one_library : functionLibrary :=
  {| Contains := fun _ => true; Call := fun _ _ => inr (VInt 1) |}.

(** An engine over the given transformations, with the test vendor table,
    an empty tree and the resolver [resolve]. *)
Definition engine_of (ts : transformationMap) : Orismologer :=
  {| mappings := (octree.NewTree []).1;
     transformations := ts;
     vendorInfo := test_vendorInfo;
     nocPathResolver := resolve;
     functions := one_library |}.

(** The NocPath [avg_cpu_util_oid] of [transformations.pb]: an Aruba, a
    Cisco and a Juniper OID, then one of the standard MIB. *)
Definition avg_cpu_util_oid : NocPath :=
  {| NocPath_GetBind := "avg_cpu_util_oid";
     NocPath_GetOids := ["1.3.6.1.4.1.14823.2.2.1.1.1.9.1.3.index";
                         "1.3.6.1.4.1.9.9.109.1.1.1.1.7.index";
                         "1.3.6.1.4.1.2636.3.1.13.1.8.index";
                         "1.3.6.1.2.1.25.3.3.1.2.index"];
     NocPath_GetSamples := ["6"; "19"; "0"; "100"] |}.

(** A NocPath under the enterprise 91, whose digits start with Cisco's 9. *)
Definition enterprise_91 : NocPath :=
  {| NocPath_GetBind := "enterprise_91";
     NocPath_GetOids := ["1.3.6.1.4.1.91.1.2"];
     NocPath_GetSamples := [] |}.

(** A parser for the expressions of the examples, each with the AST the
    grammar gives it. *)
Definition parse_table : list (string * Expression) :=
  [("1 / 0",
    expression_of (mkTerm (mkFactor (Value_Number 1) None)
                     [mkOpFactor OpDiv (mkFactor (Value_Number 0) None)]));
   ("1", expression_of (term_of (Value_Number 1)));
   ("loop", expression_of (term_of (Value_Variable "loop")));
   ("1000", expression_of (term_of (Value_Number 1000)));
   ("memory_KB / 1000",
    expression_of (mkTerm (mkFactor (Value_Variable "memory_KB") None)
                     [mkOpFactor OpDiv (mkFactor (Value_Number 1000) None)]));
   ("no_oids", expression_of (term_of (Value_Variable "no_oids")))].

Definition parser : Participle :=
  {| ParseString := fun input =>
       snd <$> List.find (fun entry => String.eqb entry.1 input) parse_table |}.

(** A transformation whose first expression divides by zero and whose
    second is a constant, and the second alone. *)
Definition zero_then_one : Transformation :=
  {| Transformation_GetBind := "zero_then_one";
     Transformation_GetExpressions := ["1 / 0"; "1"];
     Transformation_GetNocPaths := [] |}.

Definition only_one : Transformation :=
  {| Transformation_GetBind := "only_one";
     Transformation_GetExpressions := ["1"];
     Transformation_GetNocPaths := [] |}.

(** A transformation that refers to itself. *)
Definition loop : Transformation :=
  {| Transformation_GetBind := "loop";
     Transformation_GetExpressions := ["loop"];
     Transformation_GetNocPaths := [] |}.



(** The transformations [memory_KB] and [memory_MB] of the README. *)
Definition memory_KB : Transformation :=
  {| Transformation_GetBind := "memory_KB";
     Transformation_GetExpressions := ["1000"];
     Transformation_GetNocPaths := [] |}.

Definition memory_MB : Transformation :=
  {| Transformation_GetBind := "memory_MB";
     Transformation_GetExpressions := ["memory_KB / 1000"];
     Transformation_GetNocPaths := [] |}.

Definition memory_engine : Orismologer :=
  engine_of (<["memory_MB" := memory_MB]> {["memory_KB" := memory_KB]}).


(** A NocPath without OIDs, and a transformation that reads it in its first
    expression. *)
Definition no_oids : NocPath :=
  {| NocPath_GetBind := "no_oids"; NocPath_GetOids := []; NocPath_GetSamples := ["7"] |}.

Definition no_oids_then_one : Transformation :=
  {| Transformation_GetBind := "no_oids_then_one";
     Transformation_GetExpressions := ["no_oids"; "1"];
     Transformation_GetNocPaths := [no_oids] |}.

(** A NocPath of the standard MIB under the name [loop], a transformation
    whose only expression reads it, and one whose only expression reads a
    NocPath without OIDs. *)
Definition standard_mib : NocPath :=
  {| NocPath_GetBind := "loop";
     NocPath_GetOids := ["1.3.6.1.2.1.25.3.3.1.2.index"];
     NocPath_GetSamples := ["100"] |}.

Definition reads_standard_mib : Transformation :=
  {| Transformation_GetBind := "reads_standard_mib";
     Transformation_GetExpressions := ["loop"];
     Transformation_GetNocPaths := [standard_mib] |}.

Definition only_no_oids : Transformation :=
  {| Transformation_GetBind := "only_no_oids";
     Transformation_GetExpressions := ["no_oids"];
     Transformation_GetNocPaths := [no_oids] |}.

(** An instance of [GoLibraries]: [strconv.ParseUint] for base 16 and 64
    bits, [strconv.Atoi] on decimal digits with a sign, a time as its
    seconds and nanoseconds since 1970, [time.Unix] as in Go, and a
    [time.Parse] that knows one stamp of the tests. *)
Definition hex_digit (c : ascii) : option Z :=
  let n := Z.of_N (N_of_ascii c) in
  if ((48 <=? n) && (n <=? 57))%Z then Some (n - 48)%Z
  else if ((97 <=? n) && (n <=? 102))%Z then Some (n - 87)%Z
  else if ((65 <=? n) && (n <=? 70))%Z then Some (n - 55)%Z
  else None.

Fixpoint ParseUint16_loop (s : string) (n : Z) : Z * option string :=
  match s with
  | EmptyString => (n, None)
  | String c s' =>
      match hex_digit c with
      | None => (0%Z, Some "invalid syntax")
      | Some d =>
          if (2 ^ 60 <=? n)%Z then ((2 ^ 64 - 1)%Z, Some "value out of range")
          else ParseUint16_loop s' (n * 16 + d)%Z
      end
  end.

Definition ParseUint16 (s : string) : Z * option string :=
  match s with
  | EmptyString => (0%Z, Some "invalid syntax")
  | _ => ParseUint16_loop s 0
  end.

Definition Atoi_decimal (s : string) : option Z :=
  match s with
  | EmptyString => None
  | _ =>
      match NilZero.int_of_string s with
      | Some d =>
          let z := Z.of_int d in
          if ((- 2 ^ 63 <=? z) && (z <? 2 ^ 63))%Z then Some z else None
      | None => None
      end
  end.

Definition Unix_seconds (sec nsec : Z) : Z * Z :=
  if ((nsec <? 0) || (1000000000 <=? nsec))%Z then
    let n := Z.quot nsec 1000000000 in
    let sec := functions.int64 (sec + n) in
    let nsec := (nsec - n * 1000000000)%Z in
    if (nsec <? 0)%Z then (functions.int64 (sec - 1), (nsec + 1000000000)%Z)
    else (sec, nsec)
  else (sec, nsec).

Definition libraries : GoLibraries :=
  {| Atoi := Atoi_decimal;
     ParseFloat := fun _ _ => None;
     ParseUint := fun s _ _ => ParseUint16 s;
     Time := Z * Z;
     time_Unix := Unix_seconds;
     time_Parse := fun layout stamp =>
       if String.eqb layout functions.RFC3339 && String.eqb stamp "2018-12-19T11:12:24+11:00"
       then inr (1545178344%Z, 0%Z)
       else inl "cannot parse";
     Time_Unix := fun t => t.1;
     Time_UnixNano := fun t => functions.int64 (t.1 * 1000000000 + t.2) |}.

End examples.

(** * Properties *)

(** ** Go's [strings] on the separator *)

Section StringFacts.
Import GoStrings.
#[local] Arguments Ascii.eqb : simpl never.
#[local] Arguments String.eqb : simpl never.

Lemma length_app_string (s r : string) :
  String.length (s +:+ r) = String.length s + String.length r.
Proof. induction s as [|a s IH]; simpl; [reflexivity | now rewrite IH]. Qed.

Lemma substring_app_prefix (s r : string) :
  String.substring 0 (String.length s) (s +:+ r) = s.
Proof.
  induction s as [|a s IH]; simpl.
  - destruct r; reflexivity.
  - now rewrite IH.
Qed.

Lemma HasSuffix_cons (a : ascii) (s suffix : string) :
  HasSuffix (String a s) suffix = String.eqb (String a s) suffix || HasSuffix s suffix.
Proof. reflexivity. Qed.

Lemma HasSuffix_inv (s suffix : string) :
  HasSuffix s suffix = true -> exists q, s = q +:+ suffix.
Proof.
  induction s as [|a s IH]; intros Hs.
  - destruct suffix; [now exists "" | discriminate].
  - rewrite HasSuffix_cons in Hs. apply orb_true_iff in Hs as [Hs | Hs].
    + apply String.eqb_eq in Hs. exists "". now rewrite <- Hs.
    + destruct (IH Hs) as [q ->]. now exists (String a q).
Qed.

Lemma HasSuffix_app (q suffix : string) : HasSuffix (q +:+ suffix) suffix = true.
Proof.
  induction q as [|a q IH]; simpl.
  - destruct suffix; simpl; [reflexivity|].
    now rewrite String.eqb_refl.
  - rewrite IH. apply orb_true_r.
Qed.

Lemma TrimSuffix_app (q suffix : string) : TrimSuffix (q +:+ suffix) suffix = q.
Proof.
  unfold TrimSuffix. rewrite HasSuffix_app, length_app_string.
  replace (String.length q + String.length suffix - String.length suffix)
    with (String.length q) by lia.
  apply substring_app_prefix.
Qed.

(** A path without two adjacent separators, cut before its last one,
    neither holds two adjacent separators nor ends with one. *)
Lemma Contains_app_sep (q : string) :
  Contains (q +:+ "/") "//" = false ->
  Contains q "//" = false /\ HasSuffix q "/" = false.
Proof.
  induction q as [|a q IH]; simpl; intros Hc; [now split|].
  apply orb_false_iff in Hc as [Hp Hc].
  destruct (IH Hc) as [IH1 IH2]. rewrite IH1, IH2, !orb_false_r.
  destruct (Ascii.eqb_spec "/" a) as [<- | Hne].
  - destruct q as [|c q]; simpl in *; [discriminate|].
    destruct (Ascii.eqb "/" c); [discriminate | now split].
  - split; [reflexivity|]. apply String.eqb_neq. congruence.
Qed.

End StringFacts.

(** ** The path tree *)

Section OctreeFacts.
Import GoStrings octree.

(** A path that has no two adjacent separators and neither starts nor ends
    with one is its own canonical form. *)
Lemma normalizePath_fixed (r : string) :
  Contains r "//" = false -> HasSuffix r "/" = false -> HasPrefix r "/" = false ->
  normalizePath r = inr r.
Proof.
  intros Hc Hs Hp. unfold normalizePath. change (pathSep +:+ pathSep) with "//". unfold pathSep.
  destruct (String.eqb_spec r "/") as [-> | _]; [discriminate|].
  now rewrite Hc, Hs, Hp.
Qed.

Lemma normalizePath_root_prefix (q : string) :
  Contains q "//" = false -> HasSuffix q "/" = false -> HasPrefix q "/" = true ->
  normalizePath (RootName +:+ q) = inr (RootName +:+ q).
Proof.
  intros Hc Hs Hp.
  apply normalizePath_fixed; unfold RootName; simpl; change ("" +:+ q) with q;
    assumption || reflexivity.
Qed.

Lemma normalizePath_idempotent (p q : string) :
  normalizePath p = inr q -> normalizePath q = inr q.
Proof.
  unfold normalizePath at 1. change (pathSep +:+ pathSep) with "//". unfold pathSep.
  destruct (String.eqb_spec p "/") as [-> | Hne].
  { intros [= <-]. reflexivity. }
  destruct (Contains p "//") eqn:Hc; [discriminate|].
  assert (Hq : exists p', Contains p' "//" = false /\ HasSuffix p' "/" = false /\
             (if HasSuffix p "/" then TrimSuffix p "/" else p) = p').
  { destruct (HasSuffix p "/") eqn:Hs.
    - destruct (HasSuffix_inv _ _ Hs) as [p' ->]. exists p'.
      rewrite TrimSuffix_app. destruct (Contains_app_sep _ Hc). auto.
    - exists p. auto. }
  destruct Hq as (p' & Hc' & Hs' & ->).
  destruct (HasPrefix p' "/") eqn:Hp; intros [= <-].
  - now apply normalizePath_root_prefix.
  - now apply normalizePath_fixed.
Qed.

Lemma normalizePath_adjacent_separators (p : string) :
  Contains p "//" = true -> normalizePath p = inl (ErrInvalidPath p).
Proof.
  intros Hc. unfold normalizePath. change (pathSep +:+ pathSep) with "//". unfold pathSep.
  destruct (String.eqb_spec p "/") as [-> | _]; [discriminate|].
  now rewrite Hc.
Qed.

(** C7: canonicalization is idempotent where it succeeds; ["/"] is the
    root; a trailing separator is stripped and a leading one expands to the
    root; a path with two adjacent separators is an error. *)
Theorem normalizePath_laws :
  (forall p q, normalizePath p = inr q -> normalizePath q = inr q) /\
  normalizePath "/" = inr "root" /\
  normalizePath "/a/b/" = inr "root/a/b" /\
  normalizePath "/a/b" = inr "root/a/b" /\
  (forall p, Contains p "//" = true -> normalizePath p = inl (ErrInvalidPath p)) /\
  normalizePath "a//b" = inl (ErrInvalidPath "a//b").
Proof.
  repeat split; try reflexivity.
  - apply normalizePath_idempotent.
  - apply normalizePath_adjacent_separators.
Qed.

(** C6: the tree built from [{subpath:"/a"}] with the child
    [{subpath:"b/c", bind:"r"}] has exactly the nodes [root], [root/a],
    [root/a/b] and [root/a/b/c]; the rule of [root/a/b/c] is ["r"], and
    asking for the rule of the structural node [root/a/b] is the error of a
    node without payload. *)
Theorem abc_tree :
  exists t,
    NewTree abc_mappings = (t, None) /\
    Nodes (graph t) = ["root"; "root/a"; "root/a/b"; "root/a/b/c"] /\
    dom (Edges (graph t)) = list_to_set ["root"; "root/a"; "root/a/b"; "root/a/b/c"] /\
    GetTransformationIdentifier t "root/a/b/c" = inr "r" /\
    GetTransformationIdentifier t "root/a/b" = inl (ErrPayloadMissing "root/a/b").
Proof.
  eexists. split; [vm_compute; reflexivity|].
  repeat split; vm_compute; reflexivity.
Qed.

End OctreeFacts.

(** ** The evaluator *)

Section OparseFacts.
Import oparse.
Context `{RT : GoRuntime}.
Variable ctx : Context.
Variable caller : FunctionCaller.

#[local] Abbreviation Expression_eval := (Expression_eval ctx caller).
#[local] Abbreviation Term_eval := (Term_eval ctx caller).
#[local] Abbreviation Factor_eval := (Factor_eval ctx caller).
#[local] Abbreviation Value_eval := (Value_eval ctx caller).
#[local] Abbreviation Function_eval := (Function_eval ctx caller).
#[local] Abbreviation Expression_loop := (Expression_loop ctx caller).
#[local] Abbreviation Term_loop := (Term_loop ctx caller).
#[local] Abbreviation Function_args := (Function_args ctx caller).

(** The methods, unfolded once. *)
Lemma Expression_eval_eq (first : Term) (rest : list OpTerm) :
  Expression_eval (mkExpression (Some first) rest) =
  let* l := Term_eval first in Expression_loop rest l.
Proof. reflexivity. Qed.

Lemma Term_eval_eq (first : Factor) (rest : list OpFactor) :
  Term_eval (mkTerm first rest) =
  let* n := Factor_eval first in Term_loop rest n.
Proof. reflexivity. Qed.

Lemma Function_eval_eq (name : string) (fargs : list Arg) :
  Function_eval (mkFunction name fargs) =
  let* args := Function_args fargs [] in call_Function caller name args.
Proof. reflexivity. Qed.

Lemma Expression_loop_app (pre suf : list OpTerm) (l : value) :
  Expression_loop (pre ++ suf) l =
  let* m := Expression_loop pre l in Expression_loop suf m.
Proof.
  revert l. induction pre as [|[op t] pre IH]; intros l; simpl; [reflexivity|].
  destruct (Term_eval t) as [r| |]; simpl; try reflexivity.
  destruct (Operator_eval op l r); simpl; auto.
Qed.

Lemma Term_loop_app (pre suf : list OpFactor) (n : value) :
  Term_loop (pre ++ suf) n =
  let* m := Term_loop pre n in Term_loop suf m.
Proof.
  revert n. induction pre as [|[op f] pre IH]; intros n; simpl; [reflexivity|].
  destruct (Factor_eval f) as [r| |]; simpl; try reflexivity.
  destruct (Operator_eval op n r); simpl; auto.
Qed.

(** *** No [int] leaves the evaluator *)

Lemma Operator_eval_not_int (o : Operator) (l r v : value) :
  Operator_eval o l r = Ok v -> isInt v = false.
Proof.
  unfold Operator_eval.
  destruct (isInt l || isInt r); [discriminate|].
  destruct l, r, o; simpl; try discriminate; try (intros [= <-]; reflexivity).
  all: destruct (PrimFloat.eqb _ _); try discriminate; intros [= <-]; reflexivity.
Qed.

Lemma eval_Variable_not_int (name : string) (v : value) :
  eval_Variable ctx name = Ok v -> isInt v = false.
Proof.
  unfold eval_Variable. destruct (ctx !! name) as [[]|]; try discriminate;
    intros [= <-]; reflexivity.
Qed.

Lemma call_Function_not_int (name : string) (args : list value) (v : value) :
  call_Function caller name args = Ok v -> isInt v = false.
Proof.
  unfold call_Function. destruct (caller name args) as [|[]]; try discriminate;
    intros [= <-]; reflexivity.
Qed.

Lemma Expression_eval_not_int (e : Expression) (v : value) :
  Expression_eval e = Ok v -> isInt v = false
with Term_eval_not_int (t : Term) (v : value) :
  Term_eval t = Ok v -> isInt v = false
with Factor_eval_not_int (f : Factor) (v : value) :
  Factor_eval f = Ok v -> isInt v = false
with Value_eval_not_int (x : Value) (v : value) :
  Value_eval x = Ok v -> isInt v = false
with Function_eval_not_int (f : Function) (v : value) :
  Function_eval f = Ok v -> isInt v = false.
Proof.
  - destruct e as [[first|] rest]; [|discriminate].
    rewrite Expression_eval_eq.
    destruct (Term_eval first) as [l| |] eqn:El; try discriminate. simpl.
    apply Term_eval_not_int in El. clear first. revert l El.
    induction rest as [|[op t] rest IH]; intros l El; simpl.
    + now intros [= <-].
    + destruct (Term_eval t) as [r| |]; try discriminate. simpl.
      destruct (Operator_eval op l r) as [l'| |] eqn:Eo; try discriminate.
      simpl. apply IH. eapply Operator_eval_not_int, Eo.
  - destruct t as [first rest]. rewrite Term_eval_eq.
    destruct (Factor_eval first) as [n| |] eqn:En; try discriminate. simpl.
    apply Factor_eval_not_int in En. clear first. revert n En.
    induction rest as [|[op f] rest IH]; intros n En; simpl.
    + now intros [= <-].
    + destruct (Factor_eval f) as [r| |]; try discriminate. simpl.
      destruct (Operator_eval op n r) as [n'| |] eqn:Eo; try discriminate.
      simpl. apply IH. eapply Operator_eval_not_int, Eo.
  - destruct f as [base [exponent|]]; simpl.
    + destruct (Value_eval base) as [b| |]; try discriminate. simpl.
      destruct (Value_eval exponent) as [ev| |]; try discriminate. simpl.
      destruct b, ev; try discriminate. now intros [= <-].
    + destruct (Value_eval base) as [b| |] eqn:Eb; try discriminate. simpl.
      intros [= <-]. eapply Value_eval_not_int, Eb.
  - destruct x as [n|s|f|name|e]; simpl.
    + now intros [= <-].
    + now intros [= <-].
    + apply Function_eval_not_int.
    + apply eval_Variable_not_int.
    + apply Expression_eval_not_int.
  - destruct f as [name fargs]. rewrite Function_eval_eq.
    destruct (Function_args fargs []) as [args| |]; try discriminate. simpl.
    apply call_Function_not_int.
Qed.

(** *** Exponentiation *)

Lemma Factor_eval_floats (base exponent : Value) (x y : float) :
  Value_eval base = Ok (VFloat x) -> Value_eval exponent = Ok (VFloat y) ->
  Factor_eval (mkFactor base (Some exponent)) = Ok (VFloat (Pow x y)).
Proof. intros Hb He. simpl. rewrite Hb. simpl. rewrite He. reflexivity. Qed.

(** An operand of [^] that is not a float makes the type assertion of
    [Factor.eval] panic. *)
Lemma Factor_eval_panics (base exponent : Value) (b ev : value) :
  Value_eval base = Ok b -> Value_eval exponent = Ok ev ->
  isFloat b && isFloat ev = false ->
  Factor_eval (mkFactor base (Some exponent)) = Crash PanicInterfaceConversion.
Proof.
  intros Hb He Hf. simpl. rewrite Hb. simpl. rewrite He. simpl.
  destruct b, ev; try reflexivity; discriminate.
Qed.

(** C5, at its failing inputs: ['a' ^ 2] and [2 ^ 'a'] do not return an
    error, the evaluation panics on the type assertion. *)
Theorem Factor_eval_string_operand_panics :
  Factor_eval examples.string_to_the_2 = Crash PanicInterfaceConversion /\
  Factor_eval examples.two_to_the_string = Crash PanicInterfaceConversion.
Proof. split; reflexivity. Qed.

(** *** Operators on strings *)

Lemma Operator_eval_concat (l r : value) :
  isInt l = false -> isInt r = false -> isString l || isString r = true ->
  Operator_eval OpAdd l r = Ok (VString (Sprint l +:+ Sprint r)).
Proof.
  intros Hl Hr Hs. unfold Operator_eval. rewrite Hl, Hr. simpl.
  destruct l, r; try discriminate; reflexivity.
Qed.

Lemma Operator_eval_string_error (o : Operator) (l r : value) :
  isInt l = false -> isInt r = false -> isString l || isString r = true ->
  o <> OpAdd ->
  Operator_eval o l r = Err (ErrUnsupportedStringOperator (Operator_String o)).
Proof.
  intros Hl Hr Hs Ho. unfold Operator_eval. rewrite Hl, Hr. simpl.
  destruct l, r; try discriminate; destruct o; try reflexivity; congruence.
Qed.

(** A [+] inside an expression, with a string on either side: the operands
    are the value of the expression up to the operator and the value of the
    term after it. *)
Lemma Expression_eval_concat (first : Term) (pre suf : list OpTerm) (t : Term)
    (l r : value) :
  Expression_eval (mkExpression (Some first) pre) = Ok l ->
  Term_eval t = Ok r ->
  isString l || isString r = true ->
  Expression_eval (mkExpression (Some first) (pre ++ mkOpTerm OpAdd t :: suf)) =
  Expression_loop suf (VString (Sprint l +:+ Sprint r)).
Proof.
  intros Hl Hr Hs. pose proof (Expression_eval_not_int _ _ Hl) as Il.
  pose proof (Term_eval_not_int _ _ Hr) as Ir.
  rewrite Expression_eval_eq in Hl |- *.
  destruct (Term_eval first) as [l0| |]; try discriminate. simpl in *.
  rewrite Expression_loop_app, Hl. simpl. rewrite Hr. simpl.
  now rewrite Operator_eval_concat.
Qed.

(** The same place with another operator: the evaluation stops with an
    error. *)
Lemma Expression_eval_string_error (first : Term) (pre suf : list OpTerm)
    (op : Operator) (t : Term) (l r : value) :
  Expression_eval (mkExpression (Some first) pre) = Ok l ->
  Term_eval t = Ok r ->
  isString l || isString r = true -> op <> OpAdd ->
  Expression_eval (mkExpression (Some first) (pre ++ mkOpTerm op t :: suf)) =
  Err (ErrUnsupportedStringOperator (Operator_String op)).
Proof.
  intros Hl Hr Hs Ho. pose proof (Expression_eval_not_int _ _ Hl) as Il.
  pose proof (Term_eval_not_int _ _ Hr) as Ir.
  rewrite Expression_eval_eq in Hl |- *.
  destruct (Term_eval first) as [l0| |]; try discriminate. simpl in *.
  rewrite Expression_loop_app, Hl. simpl. rewrite Hr. simpl.
  now rewrite Operator_eval_string_error.
Qed.

Lemma Term_eval_string_error (first : Factor) (pre suf : list OpFactor)
    (op : Operator) (f : Factor) (l r : value) :
  Term_eval (mkTerm first pre) = Ok l ->
  Factor_eval f = Ok r ->
  isString l || isString r = true -> op <> OpAdd ->
  Term_eval (mkTerm first (pre ++ mkOpFactor op f :: suf)) =
  Err (ErrUnsupportedStringOperator (Operator_String op)).
Proof.
  intros Hl Hr Hs Ho. pose proof (Term_eval_not_int _ _ Hl) as Il.
  pose proof (Factor_eval_not_int _ _ Hr) as Ir.
  rewrite Term_eval_eq in Hl |- *.
  destruct (Factor_eval first) as [l0| |]; try discriminate. simpl in *.
  rewrite Term_loop_app, Hl. simpl. rewrite Hr. simpl.
  now rewrite Operator_eval_string_error.
Qed.

(** C8: a [+] with a string on either side concatenates the texts of its
    operands in source order, so ['The answer is ' + 41 + 1] is
    ["The answer is 411"] and ['The answer is ' + (41 + 1)] is
    ["The answer is 42"]; [-], [*] and [/] with a string operand are errors. *)
Theorem plus_concatenates_strings
    (H41 : Sprint_float64 41 = "41") (H1 : Sprint_float64 1 = "1")
    (H42 : Sprint_float64 42 = "42") :
  (forall first pre suf t l r,
      Expression_eval (mkExpression (Some first) pre) = Ok l ->
      Term_eval t = Ok r ->
      isString l || isString r = true ->
      Expression_eval (mkExpression (Some first) (pre ++ mkOpTerm OpAdd t :: suf)) =
      Expression_loop suf (VString (Sprint l +:+ Sprint r))) /\
  (forall l r,
      isInt l = false -> isInt r = false -> isString l || isString r = true ->
      Operator_eval OpAdd l r = Ok (VString (Sprint l +:+ Sprint r)) /\
      forall op, op <> OpAdd ->
        Operator_eval op l r = Err (ErrUnsupportedStringOperator (Operator_String op))) /\
  (forall first pre suf op t l r,
      Expression_eval (mkExpression (Some first) pre) = Ok l ->
      Term_eval t = Ok r ->
      isString l || isString r = true -> op <> OpAdd ->
      Expression_eval (mkExpression (Some first) (pre ++ mkOpTerm op t :: suf)) =
      Err (ErrUnsupportedStringOperator (Operator_String op))) /\
  (forall first pre suf op f l r,
      Term_eval (mkTerm first pre) = Ok l ->
      Factor_eval f = Ok r ->
      isString l || isString r = true -> op <> OpAdd ->
      Term_eval (mkTerm first (pre ++ mkOpFactor op f :: suf)) =
      Err (ErrUnsupportedStringOperator (Operator_String op))) /\
  Eval ctx caller examples.answer_411 = Ok (VString "The answer is 411") /\
  Eval ctx caller examples.answer_42 = Ok (VString "The answer is 42") /\
  Eval ctx caller examples.answer_times_2 =
    Err (ErrEval (ErrUnsupportedStringOperator "*")).
Proof.
  split; [exact Expression_eval_concat|].
  split; [intros l r Hl Hr Hs; split;
          [now apply Operator_eval_concat | intros; now apply Operator_eval_string_error]|].
  split; [exact Expression_eval_string_error|].
  split; [exact Term_eval_string_error|].
  unfold Eval. cbn. rewrite H41, H1, H42. repeat split; reflexivity.
Qed.

(** *** Division *)



End OparseFacts.

(** ** The vendor filter *)

Section VendorFilter.
Import GoStrings oparse orismologer.

(** For a vendor of the table, [canResolve] holds when one OID is admitted. *)
Lemma canResolve_oids_known (vendorRoot : string) (vendors : gmap string string)
    (vendor vendorOid : string) (oids : list string) :
  vendors !! vendor = Some vendorOid ->
  canResolve_oids vendorRoot vendors vendor oids =
  existsb (admits vendorRoot vendorOid) oids.
Proof.
  intros Hv. induction oids as [|oid oids IH]; simpl; [reflexivity|].
  rewrite Hv, IH. unfold admits.
  destruct (HasPrefix oid vendorRoot); simpl; [|reflexivity].
  now destruct (HasPrefix oid _).
Qed.

(** For a vendor outside the table, the first OID decides alone. *)
Lemma canResolve_oids_unknown (vendorRoot : string) (vendors : gmap string string)
    (vendor : string) (oids : list string) :
  vendors !! vendor = None ->
  canResolve_oids vendorRoot vendors vendor oids =
  match oids with
  | [] => false
  | oid :: _ => negb (HasPrefix oid vendorRoot)
  end.
Proof.
  intros Hv. destruct oids as [|oid oids]; simpl; [reflexivity|].
  rewrite Hv. now destruct (HasPrefix oid vendorRoot).
Qed.

(** C3, at its failing input: for the vendor ["juniper"], unknown to the
    table, [avg_cpu_util_oid] is refused at its first, Aruba OID, though its
    last OID is of the standard MIB; the same OIDs with the standard one
    first are admitted. *)
Theorem canResolve_unknown_vendor_stops :
  forall ts,
    canResolve (examples.engine_of ts) examples.avg_cpu_util_oid "juniper" = false /\
    canResolve (examples.engine_of ts)
      {| NocPath_GetBind := "avg_cpu_util_oid";
         NocPath_GetOids := rev (NocPath_GetOids examples.avg_cpu_util_oid);
         NocPath_GetSamples := [] |} "juniper" = true.
Proof. intros ts. split; reflexivity. Qed.

(** C4, at its failing input: for Cisco, of sub-identifier 9, the OID
    [1.3.6.1.4.1.91.1.2] of the enterprise 91 is admitted, though it neither
    is [1.3.6.1.4.1.9] nor starts with [1.3.6.1.4.1.9.]. *)
Theorem canResolve_admits_longer_identifier :
  forall ts,
    canResolve (examples.engine_of ts) examples.enterprise_91 "cisco" = true /\
    HasPrefix "1.3.6.1.4.1.91.1.2" "1.3.6.1.4.1.9." = false /\
    String.eqb "1.3.6.1.4.1.91.1.2" "1.3.6.1.4.1.9" = false.
Proof. intros ts. repeat split; reflexivity. Qed.

End VendorFilter.

(** ** The engine *)

Section EngineFacts.
Import GoStrings oparse orismologer.
Context `{RT : GoRuntime} `{PP : Participle}.

(** *** The resolver is called on admitted NocPaths only *)

Lemma handleNocPath_admitted (o : Orismologer) (nocPath : NocPath) (target vendor : string) :
  admitted_trace o vendor (handleNocPath o nocPath target vendor).2.
Proof.
  unfold handleNocPath, admitted_trace.
  destruct (canResolve o nocPath vendor) eqn:Hc; simpl; [|constructor].
  destruct (nocPathResolver o nocPath target); simpl; repeat constructor; exact Hc.
Qed.

Lemma handleNocPath_refused (o : Orismologer) (nocPath : NocPath) (target vendor : string) :
  canResolve o nocPath vendor = false ->
  handleNocPath o nocPath target vendor =
  (inl (ErrUnresolvableNocPath (NocPath_GetBind nocPath) vendor), []).
Proof. intros Hc. unfold handleNocPath. now rewrite Hc. Qed.

Section Body.
Variable rec : Transformation -> string -> string -> run value.
Variable o : Orismologer.
Variables target vendor : string.

#[local] Abbreviation evalVariables_loop := (evalVariables_loop rec o target vendor).
#[local] Abbreviation eval_expressions := (eval_expressions rec o target vendor).

Hypothesis rec_admitted :
  forall t, admitted_trace o vendor (rec t target vendor).2.

Lemma evalVariables_loop_admitted nocPaths variables values :
  admitted_trace o vendor (evalVariables_loop nocPaths variables values).2.
Proof.
  revert values. induction variables as [|x xs IH]; intros values; simpl.
  - constructor.
  - destruct (nocPaths !! x) as [nocPath|].
    + pose proof (handleNocPath_admitted o nocPath target vendor) as Hh.
      destruct (handleNocPath o nocPath target vendor) as [[err|val] tr]; simpl in *;
        [exact Hh|]. apply Forall_app. split; [exact Hh | apply IH].
    + destruct (transformations o !! x) as [t|]; [|constructor].
      pose proof (rec_admitted t) as Hr.
      destruct (rec t target vendor) as [[[val|err|c]|] tr]; simpl in *; try exact Hr.
      apply Forall_app. split; [exact Hr | apply IH].
Qed.

Lemma eval_expressions_admitted name nocPaths expressions :
  admitted_trace o vendor (eval_expressions name nocPaths expressions).2.
Proof.
  induction expressions as [|e es IH]; simpl; [constructor|].
  constructor; [exact I|].
  destruct (parseAndValidateExpression o e) as [err|[[expression variables] fns]];
    [exact IH|].
  unfold evalVariables_with.
  pose proof (evalVariables_loop_admitted nocPaths variables ∅) as Hv.
  destruct (evalVariables_loop nocPaths variables ∅) as [[[values|err|c]|] tr];
    simpl in *; try exact Hv.
  apply Forall_app. split; [exact Hv | exact IH].
Qed.

(** *** One step of the loop over the alternatives *)

(** The alternative does not parse, or calls a function the library lacks:
    on to the next one. *)
Lemma eval_expressions_invalid name nocPaths e es err :
  parseAndValidateExpression o e = inl err ->
  eval_expressions name nocPaths (e :: es) =
  after [EvParse e] (eval_expressions name nocPaths es).
Proof. intros Hp. simpl. now rewrite Hp. Qed.

(** A variable of the alternative fails: on to the next one. *)
Lemma eval_expressions_unresolved name nocPaths e es expression variables fns err tr :
  parseAndValidateExpression o e = inr (expression, variables, fns) ->
  evalVariables_with rec o target vendor variables nocPaths = (Some (Err err), tr) ->
  eval_expressions name nocPaths (e :: es) =
  after (EvParse e :: tr) (eval_expressions name nocPaths es).
Proof. intros Hp Hv. simpl. rewrite Hp, Hv. reflexivity. Qed.

(** The variables of the alternative have values: [eval] returns what
    [oparse.Eval] returns, value or error, and the later alternatives are
    not looked at. *)
Lemma eval_expressions_evaluated name nocPaths e es expression variables fns values tr :
  parseAndValidateExpression o e = inr (expression, variables, fns) ->
  evalVariables_with rec o target vendor variables nocPaths = (Some (Ok values), tr) ->
  eval_expressions name nocPaths (e :: es) =
  (Some (oparse.Eval values (Call (functions o)) expression), EvParse e :: tr).
Proof. intros Hp Hv. simpl. rewrite Hp, Hv. reflexivity. Qed.

(** The call on a sub-transformation does not return: neither does [eval]. *)
Lemma eval_expressions_pending name nocPaths e es expression variables fns tr :
  parseAndValidateExpression o e = inr (expression, variables, fns) ->
  evalVariables_with rec o target vendor variables nocPaths = (None, tr) ->
  eval_expressions name nocPaths (e :: es) = (None, EvParse e :: tr).
Proof. intros Hp Hv. simpl. rewrite Hp, Hv. reflexivity. Qed.

(** *** A refused NocPath among the variables *)

Lemma evalVariables_loop_refused nocPaths variables values x leaf :
  In x variables -> nocPaths !! x = Some leaf -> canResolve o leaf vendor = false ->
  forall values', (evalVariables_loop nocPaths variables values).1 <> Some (Ok values').
Proof.
  intros Hin Hx Hc. revert values.
  induction variables as [|y ys IH]; intros values values'; [destruct Hin|].
  simpl. destruct (String.eqb_spec y x) as [-> | Hne].
  - rewrite Hx, (handleNocPath_refused _ _ _ _ Hc). discriminate.
  - assert (Hin' : In x ys) by (destruct Hin; [congruence | assumption]).
    destruct (nocPaths !! y) as [nocPath|].
    + destruct (handleNocPath o nocPath target vendor) as [[err|val] tr]; simpl;
        [discriminate | now apply IH].
    + destruct (transformations o !! y) as [t|]; [|discriminate].
      destruct (rec t target vendor) as [[[val|err|c]|] tr]; simpl;
        try discriminate. now apply IH.
Qed.

(** When all the variables are NocPaths of the transformation, the loop
    ends with an error, whatever [eval] does on sub-transformations. *)
Lemma evalVariables_loop_refused_error nocPaths variables values x leaf :
  (forall y, In y variables -> is_Some (nocPaths !! y)) ->
  In x variables -> nocPaths !! x = Some leaf -> canResolve o leaf vendor = false ->
  exists err tr, evalVariables_loop nocPaths variables values = (Some (Err err), tr).
Proof.
  intros Hall Hin Hx Hc. revert values.
  induction variables as [|y ys IH]; intros values; [destruct Hin|].
  simpl. destruct (String.eqb_spec y x) as [-> | Hne].
  - rewrite Hx, (handleNocPath_refused _ _ _ _ Hc). eauto.
  - assert (Hin' : In x ys) by (destruct Hin; [congruence | assumption]).
    destruct (Hall y (or_introl eq_refl)) as [nocPath ->].
    destruct (handleNocPath o nocPath target vendor) as [[err|val] tr]; [eauto|].
    destruct (IH (fun z Hz => Hall z (or_intror Hz)) Hin' (<[y:=val]> values))
      as (err & tr' & ->).
    exists err, (tr ++ tr'). reflexivity.
Qed.

(** *** Returning, given that the calls on sub-transformations return *)



End Body.

Lemma eval_admitted (fuel : nat) (o : Orismologer) (t : Transformation)
    (target vendor : string) :
  admitted_trace o vendor (eval fuel o t target vendor).2.
Proof.
  revert t. induction fuel as [|fuel IH]; intros t; simpl; [constructor|].
  apply eval_expressions_admitted. exact IH.
Qed.

(** *** More fuel does not change a return *)

Lemma evalVariables_loop_mono rec rec' (o : Orismologer) (target vendor : string)
    nocPaths variables :
  (forall t r tr, rec t target vendor = (Some r, tr) -> rec' t target vendor = (Some r, tr)) ->
  forall values r tr,
    evalVariables_loop rec o target vendor nocPaths variables values = (Some r, tr) ->
    evalVariables_loop rec' o target vendor nocPaths variables values = (Some r, tr).
Proof.
  intros Hrec. induction variables as [|y ys IH]; intros values r tr; simpl; [auto|].
  destruct (nocPaths !! y) as [nocPath|].
  - destruct (handleNocPath o nocPath target vendor) as [[err|val] tr0]; [auto|].
    destruct (evalVariables_loop rec o target vendor nocPaths ys _) as [[r1|] tr1] eqn:E;
      unfold after; simpl; [|discriminate].
    rewrite (IH _ _ _ E). auto.
  - destruct (transformations o !! y) as [t|]; [|auto].
    destruct (rec t target vendor) as [[r0|] tr0] eqn:Er; [|discriminate].
    rewrite (Hrec _ _ _ Er). destruct r0 as [val|err|c]; auto.
    destruct (evalVariables_loop rec o target vendor nocPaths ys _) as [[r1|] tr1] eqn:E;
      unfold after; simpl; [|discriminate].
    rewrite (IH _ _ _ E). auto.
Qed.

Lemma eval_expressions_mono rec rec' (o : Orismologer) (target vendor : string)
    name nocPaths expressions :
  (forall t r tr, rec t target vendor = (Some r, tr) -> rec' t target vendor = (Some r, tr)) ->
  forall r tr,
    eval_expressions rec o target vendor name nocPaths expressions = (Some r, tr) ->
    eval_expressions rec' o target vendor name nocPaths expressions = (Some r, tr).
Proof.
  intros Hrec. induction expressions as [|e es IH]; intros r tr; simpl; [auto|].
  destruct (parseAndValidateExpression o e) as [err|[[expression variables] fns]].
  - destruct (eval_expressions rec o target vendor name nocPaths es) as [[r1|] tr1] eqn:E;
      unfold after; simpl; [|discriminate].
    rewrite (IH _ _ eq_refl). auto.
  - unfold evalVariables_with.
    destruct (evalVariables_loop rec o target vendor nocPaths variables ∅)
      as [[r0|] tr0] eqn:Ev; [|discriminate].
    rewrite (evalVariables_loop_mono rec rec' o target vendor _ _ Hrec _ _ _ Ev).
    destruct r0 as [values|err|c]; auto.
    destruct (eval_expressions rec o target vendor name nocPaths es) as [[r1|] tr1] eqn:E;
      unfold after; simpl; [|discriminate].
    rewrite (IH _ _ eq_refl). auto.
Qed.

Lemma eval_S (fuel : nat) (o : Orismologer) (t : Transformation) (target vendor : string)
    (r : result value) (tr : list event) :
  eval fuel o t target vendor = (Some r, tr) ->
  eval (S fuel) o t target vendor = (Some r, tr).
Proof.
  revert t r tr. induction fuel as [|fuel IH]; intros t r tr; [discriminate|].
  intros He. change (eval (S (S fuel)) o t target vendor)
    with (eval_with (fun t target vendor => eval (S fuel) o t target vendor)
                    o target vendor t).
  change (eval (S fuel) o t target vendor)
    with (eval_with (fun t target vendor => eval fuel o t target vendor)
                    o target vendor t) in He.
  unfold eval_with in *. revert He. apply eval_expressions_mono.
  intros t' r' tr'. apply IH.
Qed.

Lemma eval_mono (fuel fuel' : nat) (o : Orismologer) (t : Transformation)
    (target vendor : string) (r : result value) (tr : list event) :
  fuel <= fuel' ->
  eval fuel o t target vendor = (Some r, tr) ->
  eval fuel' o t target vendor = (Some r, tr).
Proof. induction 1; [auto | intros; now apply eval_S, IHle]. Qed.

(** *** Recursion through sub-transformations *)




(** *** NocPaths without OIDs *)

(** C10: a NocPath without OIDs is not admitted, for any vendor; the
    resolver is never called on it, and an alternative with it among its
    variables never evaluates: [eval] goes on to the next alternative, unless
    a call on a sub-transformation, for an earlier variable, does not return
    or crashes. *)
Theorem no_oids_is_skipped (o : Orismologer) (leaf : NocPath) (vendor : string)
    (Hoids : NocPath_GetOids leaf = []) :
  canResolve o leaf vendor = false /\
  (forall target,
      handleNocPath o leaf target vendor =
      (inl (ErrUnresolvableNocPath (NocPath_GetBind leaf) vendor), [])) /\
  (forall fuel t target target',
      ~ In (EvResolve leaf target') (eval fuel o t target vendor).2) /\
  (forall rec target name nocPaths e es expression variables fns x,
      parseAndValidateExpression o e = inr (expression, variables, fns) ->
      In x variables -> nocPaths !! x = Some leaf ->
      (forall values,
          (evalVariables_with rec o target vendor variables nocPaths).1 <> Some (Ok values)) /\
      ((eval_expressions rec o target vendor name nocPaths (e :: es)).1 =
         (eval_expressions rec o target vendor name nocPaths es).1 \/
       (eval_expressions rec o target vendor name nocPaths (e :: es)).1 = None \/
       exists c, (eval_expressions rec o target vendor name nocPaths (e :: es)).1 =
                 Some (Crash c)) /\
      ((forall y, In y variables -> is_Some (nocPaths !! y)) ->
       exists tr,
         eval_expressions rec o target vendor name nocPaths (e :: es) =
         after (EvParse e :: tr) (eval_expressions rec o target vendor name nocPaths es))).
Proof.
  assert (Hc : canResolve o leaf vendor = false).
  { unfold canResolve. now rewrite Hoids. }
  split; [exact Hc|]. split; [intros; now apply handleNocPath_refused|]. split.
  - intros fuel t target target' Hin.
    pose proof (eval_admitted fuel o t target vendor) as Ha.
    unfold admitted_trace in Ha. rewrite List.Forall_forall in Ha.
    apply Ha in Hin. simpl in Hin. congruence.
  - intros rec target name nocPaths e es expression variables fns x Hp Hx Hl.
    pose proof (evalVariables_loop_refused rec o target vendor nocPaths variables ∅ x leaf
                  Hx Hl Hc) as Hnever.
    split; [exact Hnever|]. split.
    + simpl. rewrite Hp. unfold evalVariables_with in *.
      destruct (evalVariables_loop rec o target vendor nocPaths variables ∅)
        as [[[values|err|c]|] tr]; simpl; eauto.
      now destruct (Hnever values).
    + intros Hall.
      destruct (evalVariables_loop_refused_error rec o target vendor nocPaths variables ∅
                  x leaf Hall Hx Hl Hc) as (err & tr & Hv).
      exists tr. eapply eval_expressions_unresolved; eauto.
Qed.

End EngineFacts.

(** ** The examples, run *)

Section Runs.
Import oparse orismologer.
#[local] Existing Instance examples.runtime.
#[local] Existing Instance examples.parser.

Lemma plus_concatenates_strings_witness :
  oparse.Eval ∅ examples.no_caller examples.answer_411 =
    Ok (VString "The answer is 411") /\
  oparse.Eval ∅ examples.no_caller examples.answer_42 =
    Ok (VString "The answer is 42").
Proof.
  pose proof (@plus_concatenates_strings examples.runtime ∅ examples.no_caller
                eq_refl eq_refl eq_refl) as (_ & _ & _ & _ & H411 & H42 & _).
  split; assumption.
Defined.


(** [2 ^ 10] is 1024. *)
Example power_example :
  Factor_eval ∅ examples.no_caller examples.two_to_the_10 = Ok (VFloat 1024).
Proof. reflexivity. Qed.

(** C1, at its failing input: the first expression of [zero_then_one]
    parses and has no variable, its evaluation divides by zero, and [eval]
    returns that error; the second expression, which alone evaluates to 1, is
    not tried. *)
Theorem eval_returns_the_evaluation_error :
  forall fuel,
    eval (S fuel) (examples.engine_of ∅) examples.zero_then_one "target" "cisco" =
      (Some (Err (ErrEval ErrDivisionByZero)), [EvParse "1 / 0"]) /\
    eval (S fuel) (examples.engine_of ∅) examples.only_one "target" "cisco" =
      (Some (Ok (VFloat 1)), [EvParse "1"]).
Proof. intros fuel. split; reflexivity. Qed.





(** What the README says of [memory_MB]: 1000 / 1000. *)
Example memory_MB_is_1 :
  eval 2 examples.memory_engine examples.memory_MB "target" "cisco" =
  (Some (Ok (VFloat 1)), [EvParse "memory_KB / 1000"; EvParse "1000"]).
Proof. reflexivity. Qed.

Lemma no_oids_is_skipped_witness :
  canResolve (examples.engine_of ∅) examples.no_oids "cisco" = false /\
  eval 1 (examples.engine_of ∅) examples.no_oids_then_one "target" "cisco" =
    (Some (Ok (VFloat 1)), [EvParse "no_oids"; EvParse "1"]).
Proof.
  split.
  - exact (proj1 (no_oids_is_skipped (examples.engine_of ∅) examples.no_oids "cisco" eq_refl)).
  - reflexivity.
Defined.

End Runs.

(** * Further properties *)

(** ** The adjacency list *)

Section GraphFacts.
Import GoStrings octree.

Lemma existsb_eqb_elem_of (z : string) (ns : list string) :
  existsb (String.eqb z) ns = true <-> z ∈ ns.
Proof.
  rewrite existsb_exists. split.
  - intros (x & Hx & He). apply String.eqb_eq in He. subst. now apply list_elem_of_In.
  - intros Hz. exists z. split; [now apply list_elem_of_In | apply String.eqb_refl].
Qed.

Lemma wf_graph_NewAdjList : wf_graph NewAdjList.
Proof.
  split; [constructor|]. split; simpl.
  - intros n. rewrite lookup_empty. split; [intros Hn; inversion Hn | intros [? [=]]].
  - intros a ns. rewrite lookup_empty. discriminate.
Qed.

Lemma AddNode_keys (g : AdjList) (n m : string) :
  is_Some (edges (AddNode g n) !! m) <-> m = n \/ is_Some (edges g !! m).
Proof.
  unfold AddNode. destruct (edges g !! n) as [ns|] eqn:Hn; simpl.
  - split; [auto | intros [-> | H]; [rewrite Hn; eauto | exact H]].
  - rewrite lookup_insert_is_Some. split.
    + intros [-> | [_ H]]; auto.
    + intros [-> | H]; [auto|]. destruct (decide (n = m)); auto.
Qed.

Lemma AddNode_lookup (g : AdjList) (n m : string) (ns : list string) :
  edges (AddNode g n) !! m = Some ns ->
  edges g !! m = Some ns \/ (m = n /\ ns = [] /\ edges g !! n = None).
Proof.
  unfold AddNode. destruct (edges g !! n) as [ns'|] eqn:Hn; simpl; [auto|].
  rewrite lookup_insert_Some. intros [[<- <-] | [_ H]]; auto.
Qed.

Lemma AddNode_wf (g : AdjList) (n : string) : wf_graph g -> wf_graph (AddNode g n).
Proof.
  intros (Hnd & Hkeys & Hadj). split; [|split].
  - unfold AddNode. destruct (edges g !! n) eqn:Hn; simpl; [exact Hnd|].
    apply NoDup_app. split; [exact Hnd|]. split; [|apply NoDup_singleton].
    intros x Hx ->%list_elem_of_singleton. apply Hkeys in Hx. rewrite Hn in Hx.
    now destruct Hx.
  - intros m. rewrite AddNode_keys, <- Hkeys.
    unfold AddNode. destruct (edges g !! n) eqn:Hn; simpl.
    + split; [auto | intros [-> | H]; [|exact H]]. apply Hkeys. rewrite Hn. eauto.
    + rewrite elem_of_app, list_elem_of_singleton. tauto.
  - intros a ns Ha. apply AddNode_lookup in Ha as [Ha | (-> & -> & _)].
    + destruct (Hadj a ns Ha) as [Hns Hin]. split; [exact Hns|].
      intros z Hz. apply AddNode_keys. right. now apply Hin.
    + split; [constructor | intros z Hz; inversion Hz].
Qed.

Lemma Neighbors_AddNode (g : AdjList) (n a : string) :
  Neighbors (AddNode g n) a = Neighbors g a.
Proof.
  unfold Neighbors, AddNode. destruct (edges g !! n) eqn:Hn; simpl; [reflexivity|].
  destruct (decide (n = a)) as [<- | Hne].
  - now rewrite lookup_insert_eq, Hn.
  - now rewrite lookup_insert_ne.
Qed.

Lemma AddWeightedEdge_wf (g : AdjList) (a z : string) (w : Z) :
  wf_graph g -> wf_graph (AddWeightedEdge g a z w).
Proof.
  intros Hg. apply (AddNode_wf _ a), (AddNode_wf _ z) in Hg.
  unfold AddWeightedEdge. set (g2 := AddNode (AddNode g a) z) in *.
  assert (Ha : is_Some (edges g2 !! a)).
  { apply AddNode_keys. right. apply AddNode_keys. now left. }
  assert (Hz : is_Some (edges g2 !! z)) by (apply AddNode_keys; now left).
  destruct Hg as (Hnd & Hkeys & Hadj).
  unfold Neighbors at 1. simpl.
  destruct (existsb (String.eqb z) (default [] (edges g2 !! a))) eqn:He.
  { split; [exact Hnd|]. split; [exact Hkeys | exact Hadj]. }
  assert (Hnotin : z ∉ default [] (edges g2 !! a)).
  { intros Hin. apply existsb_eqb_elem_of in Hin. congruence. }
  split; [exact Hnd|]. split; simpl.
  - intros n. rewrite Hkeys, lookup_insert_is_Some.
    split; [intros H; destruct (decide (a = n)); auto | intros [<- | [_ H]]; auto].
  - intros b ns. unfold Neighbors. simpl.
    rewrite lookup_insert_Some. intros [[<- <-] | [Hne Hb]].
    + destruct Ha as [ns Hns]. rewrite Hns in *. simpl in *.
      destruct (Hadj a ns Hns) as [Hnodup Hin]. split.
      * apply NoDup_app. split; [exact Hnodup|]. split; [|apply NoDup_singleton].
        intros x Hx ->%list_elem_of_singleton. contradiction.
      * intros x [Hx | ->%list_elem_of_singleton]%elem_of_app;
          apply lookup_insert_is_Some'; right; [now apply Hin | exact Hz].
    + destruct (Hadj b ns Hb) as [Hnodup Hin]. split; [exact Hnodup|].
      intros x Hx. apply lookup_insert_is_Some'. right. now apply Hin.
Qed.

(** X1: the graph operations keep the adjacency list well formed: no node
    is listed twice, the nodes are the keys of the edge map, and no
    adjacency list names a node twice or a node outside the graph. *)
Theorem graph_operations_keep_wf (g : AdjList) (Hg : wf_graph g) :
  (forall n, wf_graph (AddNode g n)) /\
  (forall a z w, wf_graph (AddWeightedEdge g a z w)) /\
  (forall a z, wf_graph (AddEdge g a z)).
Proof.
  split; [|split]; intros.
  - now apply AddNode_wf.
  - now apply AddWeightedEdge_wf.
  - now apply AddWeightedEdge_wf.
Qed.

Lemma Neighbors_AddWeightedEdge (g : AdjList) (a z b : string) (w : Z) :
  Neighbors (AddWeightedEdge g a z w) b =
  if decide (b = a) then
    if decide (z ∈ Neighbors g a) then Neighbors g a else Neighbors g a ++ [z]
  else Neighbors g b.
Proof.
  unfold AddWeightedEdge.
  set (g2 := AddNode (AddNode g a) z).
  assert (Hn : forall c, default [] (edges g2 !! c) = Neighbors g c).
  { intros c. unfold g2. now rewrite <- (Neighbors_AddNode g a c),
      <- (Neighbors_AddNode (AddNode g a) z c). }
  unfold Neighbors at 1 2. simpl. rewrite Hn.
  destruct (existsb (String.eqb z) (Neighbors g a)) eqn:He.
  - unfold Neighbors at 1. simpl. rewrite Hn.
    apply existsb_eqb_elem_of in He.
    destruct (decide (b = a)) as [-> | _]; [|reflexivity].
    now rewrite decide_True.
  - unfold Neighbors at 1. simpl.
    assert (Hz : z ∉ Neighbors g a).
    { intros Hin. apply existsb_eqb_elem_of in Hin. congruence. }
    destruct (decide (b = a)) as [-> | Hne].
    + rewrite lookup_insert_eq. simpl. now rewrite Hn, decide_False.
    + rewrite lookup_insert_ne by congruence. apply Hn.
Qed.

(** X2: [AddEdge] appends [z] to the neighbours of [a], after those already
    there, unless it is one of them already, and changes the neighbours of no
    other node; adding the same edge again changes no list of neighbours. *)
Theorem AddEdge_neighbors (g : AdjList) (a z : string) :
  (forall b,
      Neighbors (AddEdge g a z) b =
      if decide (b = a) then
        if decide (z ∈ Neighbors g a) then Neighbors g a else Neighbors g a ++ [z]
      else Neighbors g b) /\
  (forall b, Neighbors (AddEdge (AddEdge g a z) a z) b = Neighbors (AddEdge g a z) b) /\
  z ∈ Neighbors (AddEdge g a z) a.
Proof.
  assert (H1 : forall g b,
             Neighbors (AddEdge g a z) b =
             if decide (b = a) then
               if decide (z ∈ Neighbors g a) then Neighbors g a else Neighbors g a ++ [z]
             else Neighbors g b)
    by (intros; apply Neighbors_AddWeightedEdge).
  assert (H3 : z ∈ Neighbors (AddEdge g a z) a).
  { rewrite H1, decide_True by reflexivity.
    destruct (decide (z ∈ Neighbors g a)); [assumption|].
    apply elem_of_app. right. now apply list_elem_of_singleton. }
  split; [apply H1|]. split; [|exact H3].
  intros b. rewrite (H1 (AddEdge g a z)).
  destruct (decide (b = a)) as [-> | _]; [|reflexivity].
  now rewrite decide_True.
Qed.

End GraphFacts.

(** ** Canonical paths and their segments *)

Section PathFacts.
Import GoStrings octree.
#[local] Arguments Ascii.eqb : simpl never.
#[local] Arguments String.eqb : simpl never.

Lemma canonical_root_prefix (q : string) :
  Contains q "//" = false -> HasSuffix q "/" = false -> HasPrefix q "/" = true ->
  canonical (RootName +:+ q).
Proof.
  intros Hc Hs Hp. unfold canonical, RootName.
  cbv [String.append]. fold String.append.
  change ("" +:+ q) with q.
  split; [|split].
  - cbn [Contains HasPrefix orb]. change (Ascii.eqb "/" "r") with false.
    change (Ascii.eqb "/" "o") with false. change (Ascii.eqb "/" "t") with false.
    cbn [orb]. exact Hc.
  - reflexivity.
  - rewrite !HasSuffix_cons.
    change (String.eqb (String "r" (String "o" (String "o" (String "t" q)))) "/") with false.
    change (String.eqb (String "o" (String "o" (String "t" q))) "/") with false.
    change (String.eqb (String "o" (String "t" q)) "/") with false.
    destruct q as [|c q]; [discriminate|].
    change (String.eqb (String "t" (String c q)) "/") with false.
    exact Hs.
Qed.

Lemma normalizePath_canonical (p q : string) :
  normalizePath p = inr q -> canonical q.
Proof.
  unfold normalizePath. change (pathSep +:+ pathSep) with "//". unfold pathSep.
  destruct (String.eqb_spec p "/") as [-> | Hne].
  { intros [= <-]. repeat split. }
  destruct (Contains p "//") eqn:Hc; [discriminate|].
  assert (Hq : exists p', Contains p' "//" = false /\ HasSuffix p' "/" = false /\
             (if HasSuffix p "/" then TrimSuffix p "/" else p) = p').
  { destruct (HasSuffix p "/") eqn:Hs.
    - destruct (HasSuffix_inv _ _ Hs) as [p' ->]. exists p'.
      rewrite TrimSuffix_app. destruct (Contains_app_sep _ Hc). auto.
    - exists p. auto. }
  destruct Hq as (p' & Hc' & Hs' & ->).
  destruct (HasPrefix p' "/") eqn:Hp; intros [= <-].
  - now apply canonical_root_prefix.
  - repeat split; assumption.
Qed.

(** X3: the results of [normalizePath] are the paths without two adjacent
    separators that neither start nor end with a separator, and each of
    them is its own canonical form. *)
Theorem normalizePath_image (q : string) :
  (exists p, normalizePath p = inr q) <->
  Contains q "//" = false /\ HasPrefix q "/" = false /\ HasSuffix q "/" = false.
Proof.
  split.
  - intros [p Hp]. exact (normalizePath_canonical p q Hp).
  - intros (Hc & Hp & Hs). exists q. now apply normalizePath_fixed.
Qed.

(** *** Splitting and joining *)

Lemma split_byte_not_nil (c : ascii) (s : string) : split_byte c s <> [].
Proof.
  destruct s as [|d s]; simpl; [discriminate|].
  destruct (Ascii.eqb d c); [discriminate|].
  destruct (split_byte c s); discriminate.
Qed.

Lemma Join_cons_cons (a b : string) (rest : list string) (sep : string) :
  Join (a :: b :: rest) sep = a +:+ sep +:+ Join (b :: rest) sep.
Proof. reflexivity. Qed.

Lemma Join_String_head (d : ascii) (w : string) (ws : list string) (sep : string) :
  Join (String d w :: ws) sep = String d (Join (w :: ws) sep).
Proof. destruct ws; reflexivity. Qed.

Lemma Join_split_byte (c : ascii) (s : string) :
  Join (split_byte c s) (String c "") = s.
Proof.
  induction s as [|d s IH]; [reflexivity|]. simpl.
  destruct (Ascii.eqb_spec d c) as [-> | Hne].
  - pose proof (split_byte_not_nil c s) as Hnn.
    destruct (split_byte c s) as [|w ws]; [contradiction|].
    rewrite Join_cons_cons, IH. reflexivity.
  - pose proof (split_byte_not_nil c s) as Hnn.
    destruct (split_byte c s) as [|w ws]; [contradiction|].
    now rewrite Join_String_head, IH.
Qed.

(** X4: joining the segments [expandPath] returns gives back the canonical
    form of the path. *)
Theorem joinPath_expandPath (p : string) (segs : list string) :
  expandPath p = inr segs ->
  normalizePath p = inr (joinPath segs) /\ segs <> [].
Proof.
  unfold expandPath. destruct (normalizePath p) as [err|q]; [discriminate|].
  intros [= <-]. unfold joinPath, Split, pathSep. split.
  - now rewrite Join_split_byte.
  - apply split_byte_not_nil.
Qed.

(** No part [split_byte] cuts holds the separator. *)
Lemma split_byte_parts (s : string) :
  Forall (fun w => Contains w "/" = false) (split_byte "/" s).
Proof.
  induction s as [|d s IH]; simpl; [repeat constructor|].
  destruct (Ascii.eqb_spec d "/") as [-> | Hne]; [constructor; [reflexivity | exact IH]|].
  destruct (split_byte "/" s) as [|w ws]; [repeat constructor; simpl|].
  - destruct (Ascii.eqb_spec "/" d); [congruence | reflexivity].
  - inversion IH as [|? ? Hw Hws]; subst. constructor; [|exact Hws].
    simpl. rewrite Hw. destruct (Ascii.eqb_spec "/" d); [congruence | reflexivity].
Qed.

(** The first part is empty only for the empty string or a leading
    separator. *)
Lemma split_byte_head_empty (s : string) (ws : list string) :
  split_byte "/" s = "" :: ws -> s = "" \/ HasPrefix s "/" = true.
Proof.
  destruct s as [|d s]; [auto|]. simpl.
  destruct (Ascii.eqb_spec d "/") as [-> | Hne]; [auto|].
  destruct (split_byte "/" s); discriminate.
Qed.

Lemma split_byte_tail_nonempty (s : string) (w : string) (ws : list string) :
  Contains s "//" = false -> HasSuffix s "/" = false ->
  split_byte "/" s = w :: ws -> Forall (fun x => x <> "") ws.
Proof.
  revert w ws. induction s as [|d s IH]; intros w ws Hc Hs; simpl.
  - intros [= <- <-]. constructor.
  - rewrite HasSuffix_cons in Hs. apply orb_false_iff in Hs as [He Hs].
    simpl in Hc. apply orb_false_iff in Hc as [Hp Hc].
    destruct (Ascii.eqb_spec d "/") as [-> | Hne].
    + intros [= <- <-].
      destruct (split_byte "/" s) as [|w' ws'] eqn:Hsp;
        [now destruct (split_byte_not_nil "/" s)|].
      constructor; [|now apply (IH w' ws')].
      intros ->. apply split_byte_head_empty in Hsp as [-> | Hpre].
      * discriminate.
      * change (Ascii.eqb "/" "/") with true in Hp. cbn iota in Hp.
        destruct s as [|e s]; [discriminate|]. simpl in Hpre.
        destruct (Ascii.eqb "/" e); discriminate.
    + destruct (split_byte "/" s) as [|w' ws'] eqn:Hsp;
        [intros [= <- <-]; constructor|].
      intros [= <- <-]. now apply (IH w' ws').
Qed.

(** X5: the segments of a path other than the empty one are not empty and
    hold no separator. *)
Theorem expandPath_segments (p : string) (segs : list string) :
  expandPath p = inr segs -> p <> "" -> Forall segment segs.
Proof.
  unfold expandPath. destruct (normalizePath p) as [err|q] eqn:Hn; [discriminate|].
  intros [= <-] Hp. unfold Split, pathSep, segment.
  destruct (normalizePath_canonical p q Hn) as (Hc & Hpre & Hsuf).
  assert (Hq : q <> "").
  { intros ->. revert Hn. unfold normalizePath.
    change (pathSep +:+ pathSep) with "//". unfold pathSep.
    destruct (String.eqb_spec p "/"); [discriminate|].
    destruct (Contains p "//"); [discriminate|].
    destruct (HasSuffix p "/") eqn:Hs.
    - destruct (HasSuffix_inv _ _ Hs) as [p' ->]. rewrite TrimSuffix_app.
      destruct (HasPrefix p' "/") eqn:Hp'; [discriminate|].
      intros [= ->]. now destruct n.
    - destruct (HasPrefix p "/"); [discriminate|]. intros [= ->]. now destruct Hp. }
  pose proof (split_byte_parts q) as Hparts.
  destruct (split_byte "/" q) as [|w ws] eqn:Hsp; [constructor|].
  pose proof (split_byte_tail_nonempty q w ws Hc Hsuf Hsp) as Htail.
  inversion Hparts as [|? ? Hw Hws]; subst.
  constructor.
  - split; [|exact Hw]. intros ->.
    apply split_byte_head_empty in Hsp as [-> | Hpre']; [now destruct Hq | congruence].
  - rewrite Forall_forall in *. intros x Hx. split; [now apply Htail | now apply Hws].
Qed.

(** *** From segments to the path and back *)

Lemma no_sep_head (a : ascii) (w : string) :
  Contains (String a w) "/" = false -> Ascii.eqb "/" a = false /\ Contains w "/" = false.
Proof.
  simpl. intros [Hp Hc]%orb_false_iff. split; [|exact Hc].
  now destruct (Ascii.eqb "/" a).
Qed.

Lemma split_byte_no_sep (w : string) :
  Contains w "/" = false -> split_byte "/" w = [w].
Proof.
  induction w as [|a w IH]; [reflexivity|].
  intros [Ha Hw]%no_sep_head. simpl. rewrite Ascii.eqb_sym, Ha, (IH Hw). reflexivity.
Qed.

Lemma split_byte_app_sep (w rest : string) :
  Contains w "/" = false ->
  split_byte "/" (w +:+ "/" +:+ rest) = w :: split_byte "/" rest.
Proof.
  induction w as [|a w IH]; [reflexivity|].
  intros [Ha Hw]%no_sep_head. simpl. rewrite Ascii.eqb_sym, Ha, (IH Hw). reflexivity.
Qed.

Lemma Contains_app_no_sep (w x : string) :
  Contains w "/" = false -> Contains (w +:+ x) "//" = Contains x "//".
Proof.
  induction w as [|a w IH]; [reflexivity|].
  intros [Ha Hw]%no_sep_head. simpl. now rewrite Ha, (IH Hw).
Qed.

Lemma HasSuffix_app_no_sep (w x : string) :
  Contains w "/" = false -> x <> "" -> HasSuffix (w +:+ x) "/" = HasSuffix x "/".
Proof.
  intros Hw Hx. induction w as [|a w IH]; [reflexivity|].
  apply no_sep_head in Hw as [Ha Hw].
  change (String a w +:+ x) with (String a (w +:+ x)). rewrite HasSuffix_cons, (IH Hw).
  replace (String.eqb (String a (w +:+ x)) "/") with false; [reflexivity|].
  symmetry. apply String.eqb_neq. intros [= -> Hnil].
  discriminate.
Qed.

Lemma segment_canonical (w : string) : segment w -> canonical w.
Proof.
  intros [Hne Hw]. unfold pathSep in Hw. split; [|split].
  - clear Hne. induction w as [|a w IH]; [reflexivity|].
    apply no_sep_head in Hw as [Ha Hw]. simpl. now rewrite Ha, (IH Hw).
  - destruct w as [|a w]; [now destruct Hne|].
    apply no_sep_head in Hw as [Ha _]. simpl. now rewrite Ha.
  - destruct (HasSuffix w "/") eqn:Hs; [|reflexivity].
    destruct (HasSuffix_inv _ _ Hs) as [q ->].
    rewrite <- Hw. clear. induction q as [|a q IH]; [reflexivity|].
    simpl. rewrite <- IH. now rewrite orb_true_r.
Qed.

Lemma Join_segments_canonical (segs : list string) :
  Forall segment segs -> segs <> [] ->
  canonical (Join segs "/") /\ Join segs "/" <> "".
Proof.
  induction 1 as [|w ws Hw Hws IH]; intros Hnn; [now destruct Hnn|].
  destruct ws as [|w' ws].
  - simpl. split; [now apply segment_canonical | apply Hw].
  - destruct IH as [(Hc & Hp & Hs) Hne]; [discriminate|].
    rewrite Join_cons_cons. set (J := Join (w' :: ws) "/") in *.
    destruct Hw as [Hwne Hw]. unfold pathSep in Hw. split; [split; [|split]|].
    + rewrite (Contains_app_no_sep _ _ Hw). simpl. change ("" +:+ J) with J.
      rewrite Hc, orb_false_r.
      destruct J as [|a J]; [reflexivity|]. simpl in Hp.
      now destruct (Ascii.eqb "/" a).
    + destruct w as [|a w]; [now destruct Hwne|].
      apply no_sep_head in Hw as [Ha _]. simpl. now rewrite Ha.
    + rewrite (HasSuffix_app_no_sep _ _ Hw) by discriminate.
      change ("/" +:+ J) with (String "/" J). rewrite HasSuffix_cons, Hs, orb_false_r.
      apply String.eqb_neq. intros [= HJ]. now destruct Hne.
    + destruct w as [|a w]; [now destruct Hwne | discriminate].
Qed.

Lemma split_byte_Join (segs : list string) :
  Forall segment segs -> segs <> [] -> split_byte "/" (Join segs "/") = segs.
Proof.
  induction 1 as [|w ws [_ Hw] Hws IH]; intros Hnn; [now destruct Hnn|].
  unfold pathSep in Hw. destruct ws as [|w' ws].
  - simpl. now apply split_byte_no_sep.
  - rewrite Join_cons_cons, (split_byte_app_sep _ _ Hw), IH; [reflexivity | discriminate].
Qed.

(** X6: a path joined from segments expands into these segments again: it
    is canonical as it stands. *)
Theorem expandPath_joinPath (segs : list string) :
  Forall segment segs -> segs <> [] ->
  normalizePath (joinPath segs) = inr (joinPath segs) /\
  expandPath (joinPath segs) = inr segs.
Proof.
  intros Hsegs Hnn. unfold joinPath, pathSep.
  destruct (Join_segments_canonical segs Hsegs Hnn) as [(Hc & Hp & Hs) _].
  assert (Hn : normalizePath (Join segs "/") = inr (Join segs "/"))
    by now apply normalizePath_fixed.
  split; [exact Hn|].
  unfold expandPath. rewrite Hn. unfold Split, pathSep.
  now rewrite split_byte_Join.
Qed.

End PathFacts.

(** ** The tree *)

Section TreeFacts.
Import GoStrings octree.

(** *** The two spellings of an absolute path *)

Lemma normalizePath_two_spellings (s : string) :
  match normalizePath ("/" +:+ s), normalizePath ("root/" +:+ s) with
  | inr a, inr b => a = b
  | inl _, inl _ => True
  | _, _ => False
  end.
Proof.
  destruct s as [|c s]; [reflexivity|].
  unfold normalizePath. change (pathSep +:+ pathSep) with "//". unfold pathSep.
  change (String.eqb ("/" +:+ String c s) "/") with false.
  change (String.eqb ("root/" +:+ String c s) "/") with false. cbv iota.
  change (Contains ("root/" +:+ String c s) "//") with (Contains ("/" +:+ String c s) "//").
  destruct (Contains ("/" +:+ String c s) "//"); [exact I|].
  change (HasSuffix ("root/" +:+ String c s) "/") with (HasSuffix (String c s) "/").
  change (HasSuffix ("/" +:+ String c s) "/") with (HasSuffix (String c s) "/").
  destruct (HasSuffix (String c s) "/") eqn:Hs.
  - destruct (HasSuffix_inv _ _ Hs) as [q Hq]. rewrite Hq.
    change ("/" +:+ q +:+ "/") with (("/" +:+ q) +:+ "/").
    change ("root/" +:+ q +:+ "/") with (("root/" +:+ q) +:+ "/").
    rewrite !TrimSuffix_app. reflexivity.
  - reflexivity.
Qed.

(** X7: a path written with a leading separator and the same path written
    from [root] name the same node: [IsValid] agrees on them, and
    [GetTransformationIdentifier] finds the same binding. *)
Theorem leading_separator_is_root (t : OcTree) (s : string) :
  IsValid t ("/" +:+ s) = IsValid t ("root/" +:+ s) /\
  (forall b, GetTransformationIdentifier t ("/" +:+ s) = inr b <->
             GetTransformationIdentifier t ("root/" +:+ s) = inr b).
Proof.
  pose proof (normalizePath_two_spellings s) as H.
  unfold IsValid, GetTransformationIdentifier.
  destruct (normalizePath ("/" +:+ s)) as [e1|a], (normalizePath ("root/" +:+ s)) as [e2|b];
    try contradiction.
  - split; [reflexivity|]. intros b. split; discriminate.
  - subst. split; [reflexivity | tauto].
Qed.

(** *** Payloads *)

(** X8: a payload set on a valid node is the payload got from it, the
    payloads of the other nodes and the graph stay as they were; on a path
    that is no node, [setPayload] is an error and changes nothing. *)
Theorem setPayload_getPayload (t : OcTree) (node : string) (payload : OpenConfigNode) :
  (IsValid t node = true ->
   snd (setPayload t node payload) = None /\
   getPayload (fst (setPayload t node payload)) node = inr payload /\
   graph (fst (setPayload t node payload)) = graph t /\
   forall other, other <> node ->
     getPayload (fst (setPayload t node payload)) other = getPayload t other) /\
  (IsValid t node = false ->
   setPayload t node payload = (t, Some (ErrSetPayloadNoNode node))).
Proof.
  unfold setPayload. split; intros Hv; rewrite Hv; simpl; [|reflexivity].
  split; [reflexivity|].
  assert (Hsame : forall m, IsValid {| graph := graph t;
                                       payloads := <[node:=payload]> (payloads t) |} m
                            = IsValid t m) by reflexivity.
  split; [|split; [reflexivity|]].
  - unfold getPayload. rewrite Hsame, Hv. simpl. now rewrite lookup_insert_eq.
  - intros other Hne. unfold getPayload. rewrite Hsame. simpl.
    now rewrite lookup_insert_ne by congruence.
Qed.

(** X9: [GetTransformationIdentifier] looks the path up by its canonical
    form: it returns the binding of the payload stored under that form, when
    the form is a node of the graph, and an error in every other case. *)
Theorem GetTransformationIdentifier_spec (t : OcTree) (path b : string) :
  GetTransformationIdentifier t path = inr b <->
  exists q payload,
    normalizePath path = inr q /\
    is_Some (Edges (graph t) !! q) /\
    payloads t !! q = Some payload /\
    GetBind payload = b.
Proof.
  unfold GetTransformationIdentifier, getPayload, IsValid.
  destruct (normalizePath path) as [err|q] eqn:Hn.
  { split; [discriminate | intros (q & payload & [=] & _)]. }
  rewrite (normalizePath_idempotent _ _ Hn).
  destruct (bool_decide (is_Some (Edges (graph t) !! q))) eqn:Hk; simpl.
  - apply bool_decide_eq_true in Hk.
    destruct (payloads t !! q) as [payload|] eqn:Hp.
    + split; [intros [= <-]; eauto 6|].
      intros (q' & payload' & [= <-] & _ & Hp' & <-). congruence.
    + split; [discriminate | intros (q' & payload' & [= <-] & _ & Hp' & _); congruence].
  - apply bool_decide_eq_false in Hk.
    split; [discriminate | intros (q' & payload' & [= <-] & Hs & _); contradiction].
Qed.

(** *** Building *)

Lemma OpenConfigNode_nested_ind (P : OpenConfigNode -> Prop) :
  (forall sp b cs, Forall P cs -> P (mkOpenConfigNode sp b cs)) ->
  forall n, P n.
Proof.
  intros HP. fix IH 1. intros [sp b cs]. apply HP.
  induction cs as [|c cs IHcs]; constructor; [apply IH | exact IHcs].
Qed.

Lemma build_unfold (t : OcTree) (parent : string) sp b cs :
  build t parent (mkOpenConfigNode sp b cs) =
  match expandPath (path sp) with
  | inl err => (t, Some err)
  | inr subpath =>
      let '(parent, subpath) :=
        match subpath with
        | first :: rest =>
            if String.eqb first RootName then (RootName, rest) else (parent, subpath)
        | [] => (parent, subpath)
        end in
      let '(t, fullPath) := build_path t parent parent subpath in
      match setPayload t fullPath (mkOpenConfigNode sp b cs) with
      | (t, Some err) => (t, Some err)
      | (t, None) => build_children t fullPath cs
      end
  end.
Proof.
  cbn [build GetSubpath]. destruct (expandPath (path sp)) as [err|subpath]; [reflexivity|].
  destruct (match subpath with
            | [] => (parent, subpath)
            | first :: rest =>
                if String.eqb first RootName then (RootName, rest) else (parent, subpath)
            end) as [parent' subpath'].
  destruct (build_path t parent' parent' subpath') as [t1 fullPath].
  destruct (setPayload t1 fullPath (mkOpenConfigNode sp b cs)) as [t2 [err|]]; [reflexivity|].
  generalize t2. induction cs as [|c cs IH]; intros t3; [reflexivity|].
  cbn [build_children]. destruct (build t3 fullPath c) as [t4 [err|]]; [reflexivity|].
  apply IH.
Qed.

(** What every step of the construction keeps, when [AddEdge] keeps it. *)
Section Invariant.
Variable Q : AdjList -> Prop.
Hypothesis Q_AddEdge : forall g a z, Q g -> Q (AddEdge g a z).

Lemma addChild_keeps t parent child : Q (graph t) -> Q (graph (addChild t parent child).1).
Proof. unfold addChild. destruct (negb (IsValid t parent)); simpl; auto. Qed.

Lemma setPayload_keeps t node payload :
  Q (graph t) -> Q (graph (setPayload t node payload).1).
Proof. unfold setPayload. destruct (negb (IsValid t node)); simpl; auto. Qed.

Lemma build_path_keeps t parent fullPath subpath :
  Q (graph t) -> Q (graph (build_path t parent fullPath subpath).1).
Proof.
  revert t parent fullPath. induction subpath as [|node rest IH]; intros t parent fullPath Ht;
    simpl; [exact Ht|].
  apply IH. now apply addChild_keeps.
Qed.

Lemma build_keeps (current : OpenConfigNode) :
  forall t parent, Q (graph t) -> Q (graph (build t parent current).1).
Proof.
  induction current as [sp b cs IHcs] using OpenConfigNode_nested_ind.
  intros t parent Ht. rewrite build_unfold.
  destruct (expandPath (path sp)) as [err|subpath]; [exact Ht|].
  destruct (match subpath with
            | [] => (parent, subpath)
            | first :: rest =>
                if String.eqb first RootName then (RootName, rest) else (parent, subpath)
            end) as [parent' subpath'].
  pose proof (build_path_keeps t parent' parent' subpath' Ht) as H1.
  destruct (build_path t parent' parent' subpath') as [t1 fullPath]. simpl in H1.
  pose proof (setPayload_keeps t1 fullPath (mkOpenConfigNode sp b cs) H1) as H2.
  destruct (setPayload t1 fullPath (mkOpenConfigNode sp b cs)) as [t2 [err|]];
    simpl in H2; [exact H2|].
  clear H1 Ht. revert t2 H2.
  induction IHcs as [|c cs Hc _ IH]; intros t2 H2; [exact H2|].
  cbn [build_children]. specialize (Hc t2 fullPath H2).
  destruct (build t2 fullPath c) as [t3 [err|]]; simpl in Hc; [exact Hc|].
  now apply IH.
Qed.

Lemma build_children_keeps cs :
  forall t fullPath, Q (graph t) -> Q (graph (build_children t fullPath cs).1).
Proof.
  induction cs as [|c cs IH]; intros t fullPath Ht; [exact Ht|].
  cbn [build_children]. pose proof (build_keeps c t fullPath Ht) as Hc.
  destruct (build t fullPath c) as [t3 [err|]]; simpl in Hc; [exact Hc|].
  now apply IH.
Qed.

End Invariant.

Lemma NewTree_build_nodes (mappings : Mappings) :
  NewTree mappings =
  build_nodes {| graph := AddNode NewAdjList RootName; payloads := ∅ |} mappings.
Proof.
  unfold NewTree, build_nodes.
  generalize {| graph := AddNode NewAdjList RootName; payloads := ∅ |}.
  induction mappings as [|n ns IH]; intros t; [reflexivity|].
  cbn [build_children]. destruct (build t RootName n) as [t' [err|]]; [reflexivity|].
  apply IH.
Qed.

Lemma AddEdge_keeps_key (n : string) (g : AdjList) (a z : string) :
  is_Some (edges g !! n) -> is_Some (edges (AddEdge g a z) !! n).
Proof.
  intros Hn. unfold AddEdge, AddWeightedEdge.
  set (g2 := AddNode (AddNode g a) z).
  assert (H2 : is_Some (edges g2 !! n)) by (apply AddNode_keys; right; apply AddNode_keys; now right).
  simpl. destruct (existsb _ _); simpl; [exact H2|].
  apply lookup_insert_is_Some'. now right.
Qed.

(** X10: building never takes a node away: a path valid before [build] is
    valid after it, whether [build] fails or not; and the tree [NewTree]
    returns, with or without error, has a well-formed graph in which the
    root is valid under both its names. *)
Theorem build_keeps_nodes :
  (forall current t parent path,
      IsValid t path = true -> IsValid (build t parent current).1 path = true) /\
  (forall mappings,
      wf_graph (graph (NewTree mappings).1) /\
      IsValid (NewTree mappings).1 "/" = true /\
      IsValid (NewTree mappings).1 "root" = true).
Proof.
  split.
  - intros current t parent path. unfold IsValid.
    destruct (normalizePath path) as [err|q]; [discriminate|].
    rewrite !bool_decide_eq_true. unfold Edges.
    apply (build_keeps (fun g => is_Some (edges g !! q))).
    intros g a z. apply AddEdge_keeps_key.
  - intros mappings. rewrite NewTree_build_nodes. unfold build_nodes.
    set (t0 := {| graph := AddNode NewAdjList RootName; payloads := ∅ |}).
    assert (Hroot : is_Some (edges (graph (build_children t0 RootName mappings).1) !! "root")).
    { apply (build_children_keeps (fun g => is_Some (edges g !! "root"))).
      - intros g a z. apply AddEdge_keeps_key.
      - simpl. apply AddNode_keys. now left. }
    split; [|split].
    + apply (build_children_keeps wf_graph).
      * intros g a z. apply AddWeightedEdge_wf.
      * simpl. apply AddNode_wf, wf_graph_NewAdjList.
    + unfold IsValid. simpl. now apply bool_decide_eq_true.
    + unfold IsValid. simpl. now apply bool_decide_eq_true.
Qed.

End TreeFacts.

(** ** The evaluator and the identifiers of an expression *)

Section IdentifierFacts.
Import oparse.
Context `{RT : GoRuntime}.

Lemma Identifiers_unfold first rest :
  Identifiers (mkExpression first rest) =
  OpTerms_identifiers rest
    (match first with Some first => Term_identifiers first | None => ([], []) end).
Proof. reflexivity. Qed.

Lemma Term_identifiers_unfold first rest :
  Term_identifiers (mkTerm first rest) =
  OpFactors_identifiers rest (Factor_identifiers first).
Proof. reflexivity. Qed.

Lemma Function_identifiers_unfold name fargs :
  Function_identifiers (mkFunction name fargs) = Args_identifiers fargs ([], [name]).
Proof. reflexivity. Qed.

Lemma OpTerms_identifiers_acc rs acc :
  OpTerms_identifiers rs acc =
  (acc.1 ++ (OpTerms_identifiers rs ([], [])).1, acc.2 ++ (OpTerms_identifiers rs ([], [])).2).
Proof.
  revert acc. induction rs as [|[op t] rs IH]; intros [vs fs]; simpl.
  - now rewrite !app_nil_r.
  - destruct (Term_identifiers t) as [tv tf]. simpl.
    rewrite (IH (vs ++ tv, fs ++ tf)), (IH (tv, tf)). simpl. now rewrite !app_assoc.
Qed.

Lemma OpFactors_identifiers_acc rs acc :
  OpFactors_identifiers rs acc =
  (acc.1 ++ (OpFactors_identifiers rs ([], [])).1,
   acc.2 ++ (OpFactors_identifiers rs ([], [])).2).
Proof.
  revert acc. induction rs as [|[op f] rs IH]; intros [vs fs]; simpl.
  - now rewrite !app_nil_r.
  - destruct (Factor_identifiers f) as [tv tf]. simpl.
    rewrite (IH (vs ++ tv, fs ++ tf)), (IH (tv, tf)). simpl. now rewrite !app_assoc.
Qed.

Lemma Args_identifiers_acc fargs acc :
  Args_identifiers fargs acc =
  (acc.1 ++ (Args_identifiers fargs ([], [])).1, acc.2 ++ (Args_identifiers fargs ([], [])).2).
Proof.
  revert acc. induction fargs as [|[v sep] fargs IH]; intros [vs fs]; simpl.
  - now rewrite !app_nil_r.
  - destruct (Identifiers v) as [tv tf]. simpl.
    rewrite (IH (vs ++ tv, fs ++ tf)), (IH (tv, tf)). simpl. now rewrite !app_assoc.
Qed.

Section Agreement.
Variables ctx ctx' : Context.
Variables caller caller' : FunctionCaller.

#[local] Abbreviation agree := (oparse.agree ctx ctx' caller caller').

Lemma agree_app a b : agree (a.1 ++ b.1, a.2 ++ b.2) <-> agree a /\ agree b.
Proof.
  unfold agree. simpl. split.
  - intros [Hv Hf]. repeat split; intros; (apply Hv || apply Hf); apply in_or_app; auto.
  - intros [[Hv Hf] [Hv' Hf']]. split; intros ? [?|?]%in_app_or; auto.
Qed.

Lemma agree_pair (a : list string * list string) : agree a <-> agree (a.1, a.2).
Proof. now destruct a. Qed.

Lemma Expression_eval_agree (e : Expression) :
  agree (Identifiers e) -> Expression_eval ctx caller e = Expression_eval ctx' caller' e
with Term_eval_agree (t : Term) :
  agree (Term_identifiers t) -> Term_eval ctx caller t = Term_eval ctx' caller' t
with Factor_eval_agree (f : Factor) :
  agree (Factor_identifiers f) -> Factor_eval ctx caller f = Factor_eval ctx' caller' f
with Value_eval_agree (v : Value) :
  agree (Value_identifiers v) -> Value_eval ctx caller v = Value_eval ctx' caller' v
with Function_eval_agree (f : Function) :
  agree (Function_identifiers f) -> Function_eval ctx caller f = Function_eval ctx' caller' f.
Proof.
  - destruct e as [[first|] rest]; [|reflexivity].
    rewrite Identifiers_unfold, OpTerms_identifiers_acc, agree_app, !Expression_eval_eq.
    intros [Hfirst Hrest]. rewrite (Term_eval_agree first Hfirst).
    destruct (Term_eval ctx' caller' first) as [l| |]; try reflexivity. simpl.
    revert l Hrest. induction rest as [|[op t] rest IH]; intros l Hrest; [reflexivity|].
    simpl in Hrest. destruct (Term_identifiers t) as [tv tf] eqn:Ht.
    rewrite OpTerms_identifiers_acc in Hrest. simpl in Hrest.
    apply (agree_app (tv, tf)) in Hrest as [Hhead Htail].
    rewrite <- Ht in Hhead. simpl. rewrite (Term_eval_agree t Hhead).
    destruct (Term_eval ctx' caller' t) as [r| |]; try reflexivity. simpl.
    destruct (Operator_eval op l r) as [l'| |]; try reflexivity. simpl.
    apply IH. now apply agree_pair.
  - destruct t as [first rest].
    rewrite Term_identifiers_unfold, OpFactors_identifiers_acc, agree_app, !Term_eval_eq.
    intros [Hfirst Hrest]. rewrite (Factor_eval_agree first Hfirst).
    destruct (Factor_eval ctx' caller' first) as [l| |]; try reflexivity. simpl.
    revert l Hrest. induction rest as [|[op f] rest IH]; intros l Hrest; [reflexivity|].
    simpl in Hrest. destruct (Factor_identifiers f) as [tv tf] eqn:Ht.
    rewrite OpFactors_identifiers_acc in Hrest. simpl in Hrest.
    apply (agree_app (tv, tf)) in Hrest as [Hhead Htail].
    rewrite <- Ht in Hhead. simpl. rewrite (Factor_eval_agree f Hhead).
    destruct (Factor_eval ctx' caller' f) as [r| |]; try reflexivity. simpl.
    destruct (Operator_eval op l r) as [l'| |]; try reflexivity. simpl.
    apply IH. now apply agree_pair.
  - destruct f as [base [exponent|]]; simpl.
    + destruct (Value_identifiers base) as [bv bf] eqn:Hb.
      destruct (Value_identifiers exponent) as [ev ef] eqn:He.
      intros [Hbase Hexp]%(agree_app (bv, bf) (ev, ef)).
      rewrite <- Hb in Hbase. rewrite <- He in Hexp.
      now rewrite (Value_eval_agree base Hbase), (Value_eval_agree exponent Hexp).
    + destruct (Value_identifiers base) as [bv bf] eqn:Hb. intros Hbase.
      rewrite <- Hb in Hbase. now rewrite (Value_eval_agree base Hbase).
  - destruct v as [n|s|f|name|e]; simpl; try reflexivity.
    + apply Function_eval_agree.
    + intros [Hv _]. unfold eval_Variable. rewrite (Hv name); [reflexivity | now left].
    + apply Expression_eval_agree.
  - destruct f as [name fargs].
    rewrite Function_identifiers_unfold, Args_identifiers_acc, !Function_eval_eq.
    intros [[_ Hname] Hargs]%(agree_app ([], [name])).
    assert (Hcall : forall args, call_Function caller name args = call_Function caller' name args).
    { intros args. unfold call_Function. rewrite (Hname name); [reflexivity | now left]. }
    assert (Hloop : forall acc, Function_args ctx caller fargs acc =
                                Function_args ctx' caller' fargs acc).
    { apply agree_pair in Hargs.
      induction fargs as [|[v sep] fargs IH]; intros acc; [reflexivity|].
      simpl in Hargs. destruct (Identifiers v) as [tv tf] eqn:Hv.
      rewrite Args_identifiers_acc in Hargs. simpl in Hargs.
      apply (agree_app (tv, tf)) in Hargs as [Hhead Htail].
      rewrite <- Hv in Hhead. simpl. rewrite (Expression_eval_agree v Hhead).
      destruct (Expression_eval ctx' caller' v) as [r| |]; try reflexivity. simpl.
      apply IH. now apply agree_pair. }
    rewrite Hloop. destruct (Function_args ctx' caller' fargs []); simpl; auto.
Qed.

End Agreement.

(** X11: an evaluation reads of its context the variables [Identifiers]
    lists, and of its caller the functions it lists, and nothing else: two
    contexts that agree on the former and two callers that agree on the
    latter give the same result, value, error or crash. *)
Theorem Eval_reads_its_identifiers (ctx ctx' : Context) (caller caller' : FunctionCaller)
    (expression : Expression) :
  (forall x, In x (Identifiers expression).1 -> ctx !! x = ctx' !! x) ->
  (forall f, In f (Identifiers expression).2 ->
             forall args, caller f args = caller' f args) ->
  Eval ctx caller expression = Eval ctx' caller' expression.
Proof.
  intros Hv Hf. unfold Eval.
  now rewrite (Expression_eval_agree ctx ctx' caller caller' expression (conj Hv Hf)).
Qed.

(** *** What the evaluator never does *)

Section Crashes.
Variable ctx : Context.
Variable caller : FunctionCaller.

Lemma Operator_eval_no_crash (o : Operator) (l r : value) :
  isInt l = false -> isInt r = false ->
  forall c, Operator_eval o l r <> Crash c.
Proof.
  intros Hl Hr c. unfold Operator_eval. rewrite Hl, Hr. simpl.
  destruct l, r, o; simpl; try discriminate;
    destruct (PrimFloat.eqb _ _); discriminate.
Qed.

Lemma Expression_eval_not_fatal (e : Expression) :
  Expression_eval ctx caller e <> Crash LogFatal
with Term_eval_not_fatal (t : Term) :
  Term_eval ctx caller t <> Crash LogFatal
with Factor_eval_not_fatal (f : Factor) :
  Factor_eval ctx caller f <> Crash LogFatal
with Value_eval_not_fatal (v : Value) :
  Value_eval ctx caller v <> Crash LogFatal
with Function_eval_not_fatal (f : Function) :
  Function_eval ctx caller f <> Crash LogFatal.
Proof.
  - destruct e as [[first|] rest]; [|discriminate].
    rewrite Expression_eval_eq.
    pose proof (Term_eval_not_fatal first) as Hf.
    destruct (Term_eval ctx caller first) as [l| |] eqn:El; try discriminate;
      [|exact Hf]. simpl.
    apply Term_eval_not_int in El. clear Hf first. revert l El.
    induction rest as [|[op t] rest IH]; intros l El; simpl; [discriminate|].
    pose proof (Term_eval_not_fatal t) as Ht.
    destruct (Term_eval ctx caller t) as [r| |] eqn:Er; try discriminate; [|exact Ht].
    simpl. apply Term_eval_not_int in Er.
    destruct (Operator_eval op l r) as [l'| |c] eqn:Eo; try discriminate.
    + simpl. apply IH. eapply Operator_eval_not_int, Eo.
    + now destruct (Operator_eval_no_crash op l r El Er c).
  - destruct t as [first rest]. rewrite Term_eval_eq.
    pose proof (Factor_eval_not_fatal first) as Hf.
    destruct (Factor_eval ctx caller first) as [l| |] eqn:El; try discriminate;
      [|exact Hf]. simpl.
    apply Factor_eval_not_int in El. clear Hf first. revert l El.
    induction rest as [|[op f] rest IH]; intros l El; simpl; [discriminate|].
    pose proof (Factor_eval_not_fatal f) as Ht.
    destruct (Factor_eval ctx caller f) as [r| |] eqn:Er; try discriminate; [|exact Ht].
    simpl. apply Factor_eval_not_int in Er.
    destruct (Operator_eval op l r) as [l'| |c] eqn:Eo; try discriminate.
    + simpl. apply IH. eapply Operator_eval_not_int, Eo.
    + now destruct (Operator_eval_no_crash op l r El Er c).
  - destruct f as [base [exponent|]]; simpl.
    + pose proof (Value_eval_not_fatal base) as Hb.
      destruct (Value_eval ctx caller base) as [b| |]; try discriminate; [|exact Hb].
      simpl. pose proof (Value_eval_not_fatal exponent) as He.
      destruct (Value_eval ctx caller exponent) as [ev| |]; try discriminate; [|exact He].
      simpl. destruct b, ev; discriminate.
    + pose proof (Value_eval_not_fatal base) as Hb.
      destruct (Value_eval ctx caller base) as [b| |]; try discriminate. exact Hb.
  - destruct v as [n|s|f|name|e]; simpl; try discriminate.
    + apply Function_eval_not_fatal.
    + unfold eval_Variable. destruct (ctx !! name) as [[]|]; discriminate.
    + apply Expression_eval_not_fatal.
  - destruct f as [name fargs]. rewrite Function_eval_eq.
    assert (Hargs : forall acc, Function_args ctx caller fargs acc <> Crash LogFatal).
    { induction fargs as [|[v sep] fargs IH]; intros acc; simpl; [discriminate|].
      pose proof (Expression_eval_not_fatal v) as Hv.
      destruct (Expression_eval ctx caller v) as [r| |c]; try discriminate.
      - simpl. apply IH.
      - simpl. intros [= ->]. now destruct Hv. }
    specialize (Hargs []).
    destruct (Function_args ctx caller fargs []) as [args| |c]; try discriminate.
    + simpl. unfold call_Function. destruct (caller name args) as [|[]]; discriminate.
    + simpl. intros [= ->]. now destruct Hargs.
Qed.

(** X12: no evaluation ends in the [log.Fatal] of [Operator.eval]: the
    operands of an operator are never [int], whatever the context binds and
    the caller returns. *)
Theorem Eval_never_log_fatal (expression : Expression) :
  Eval ctx caller expression <> Crash LogFatal /\
  forall v, Eval ctx caller expression = Ok v -> isInt v = false.
Proof.
  unfold Eval. pose proof (Expression_eval_not_fatal expression) as Hf.
  destruct (Expression_eval ctx caller expression) as [r| |] eqn:He.
  - split; [discriminate|]. intros v [= <-]. eapply Expression_eval_not_int, He.
  - split; discriminate.
  - split; [exact Hf | discriminate].
Qed.

(** *** Function calls *)

Lemma Function_args_values (fargs : list Arg) (vs acc : list value) :
  Forall2 (fun a v => Expression_eval ctx caller (Arg_Value a) = Ok v) fargs vs ->
  Function_args ctx caller fargs acc = Ok (acc ++ vs).
Proof.
  intros Hall. revert acc.
  induction Hall as [|[e sep] v fargs vs He _ IH]; intros acc; simpl.
  - now rewrite app_nil_r.
  - simpl in He. rewrite He. simpl. rewrite IH, <- app_assoc. reflexivity.
Qed.

Lemma Function_args_failure (pre post : list Arg) (a : Arg) (vs acc : list value)
    (r : result value) :
  Forall2 (fun a v => Expression_eval ctx caller (Arg_Value a) = Ok v) pre vs ->
  Expression_eval ctx caller (Arg_Value a) = r -> (forall v, r <> Ok v) ->
  Function_args ctx caller (pre ++ a :: post) acc =
  match r with Ok _ => Ok [] | Err e => Err e | Crash c => Crash c end.
Proof.
  intros Hall Hr Hnot. revert acc.
  induction Hall as [|[e sep] v fargs vs He _ IH]; intros acc; simpl.
  - destruct a as [e sep]. simpl in Hr. rewrite Hr.
    destruct r as [v| |]; [now destruct (Hnot v) | reflexivity | reflexivity].
  - simpl in He. rewrite He. simpl. apply IH.
Qed.

(** X13: a function call evaluates its arguments from left to right and
    calls the function with their values in that order, an [int] it returns
    becoming a float; when an argument fails, with an error or a crash, that
    failure is the result of the call, whatever arguments follow. *)
Theorem Function_eval_arguments (name : string) :
  (forall fargs vs,
      Forall2 (fun a v => Expression_eval ctx caller (Arg_Value a) = Ok v) fargs vs ->
      Function_eval ctx caller (mkFunction name fargs) =
      match caller name vs with
      | inl err => Err err
      | inr (VInt resultInt) => Ok (VFloat (float64_of_int resultInt))
      | inr res => Ok res
      end) /\
  (forall pre a post vs,
      Forall2 (fun a v => Expression_eval ctx caller (Arg_Value a) = Ok v) pre vs ->
      (forall e, Expression_eval ctx caller (Arg_Value a) = Err e ->
                 Function_eval ctx caller (mkFunction name (pre ++ a :: post)) = Err e) /\
      (forall c, Expression_eval ctx caller (Arg_Value a) = Crash c ->
                 Function_eval ctx caller (mkFunction name (pre ++ a :: post)) = Crash c)).
Proof.
  split.
  - intros fargs vs Hall. rewrite Function_eval_eq.
    now rewrite (Function_args_values fargs vs [] Hall).
  - intros pre a post vs Hall. split.
    + intros e Ha. rewrite Function_eval_eq.
      rewrite (Function_args_failure pre post a vs [] (Err e) Hall Ha); [reflexivity|].
      discriminate.
    + intros c Ha. rewrite Function_eval_eq.
      rewrite (Function_args_failure pre post a vs [] (Crash c) Hall Ha); [reflexivity|].
      discriminate.
Qed.

End Crashes.

End IdentifierFacts.

(** ** The engine, further *)

Section RegistryFacts.
Import GoStrings oparse orismologer.

Lemma makeTransformationMap_loop_spec (ts seen : list Transformation) (m : transformationMap) :
  (forall name t, m !! name = Some t <-> In t seen /\ Transformation_GetBind t = name) ->
  NoDup (map Transformation_GetBind seen) ->
  match makeTransformationMap_loop ts m with
  | inr m' =>
      NoDup (map Transformation_GetBind (seen ++ ts)) /\
      forall name t, m' !! name = Some t <->
                     In t (seen ++ ts) /\ Transformation_GetBind t = name
  | inl err =>
      exists pre t post,
        ts = pre ++ t :: post /\
        err = ErrDuplicateTransformation (Transformation_GetBind t) /\
        NoDup (map Transformation_GetBind (seen ++ pre)) /\
        In (Transformation_GetBind t) (map Transformation_GetBind (seen ++ pre))
  end.
Proof.
  revert seen m. induction ts as [|t ts IH]; intros seen m Hm Hnd; simpl.
  - rewrite app_nil_r. auto.
  - destruct (m !! Transformation_GetBind t) as [t0|] eqn:Ht.
    + exists [], t, ts. rewrite app_nil_r. repeat split; auto.
      apply Hm in Ht as [Hin Hb]. rewrite <- Hb. now apply in_map.
    + assert (Hfresh : ~ In (Transformation_GetBind t) (map Transformation_GetBind seen)).
      { intros (t0 & Hb & Hin)%in_map_iff.
        assert (m !! Transformation_GetBind t = Some t0) by (now apply Hm).
        congruence. }
      assert (Hm' : forall name t1,
                 <[Transformation_GetBind t := t]> m !! name = Some t1 <->
                 In t1 (seen ++ [t]) /\ Transformation_GetBind t1 = name).
      { intros name t1. rewrite lookup_insert_Some, in_app_iff, Hm. simpl. split.
        - intros [[<- <-] | [Hne Hin]]; tauto.
        - intros [[Hin | [<- | []]] Hb]; [|now left].
          right. split; [|auto]. intros Heq. apply Hfresh. rewrite Heq, <- Hb.
          now apply in_map. }
      assert (Hnd' : NoDup (map Transformation_GetBind (seen ++ [t]))).
      { rewrite map_app. simpl. apply NoDup_app. split; [exact Hnd|]. split.
        - intros x Hx ->%list_elem_of_singleton. apply Hfresh. now apply list_elem_of_In.
        - apply NoDup_singleton. }
      specialize (IH (seen ++ [t]) (<[Transformation_GetBind t := t]> m) Hm' Hnd').
      rewrite <- !app_assoc in IH. simpl in IH.
      destruct (makeTransformationMap_loop ts _) as [err|m']; [|exact IH].
      destruct IH as (pre & t' & post & -> & -> & Hnd'' & Hin').
      exists (t :: pre), t', post. rewrite <- !app_assoc in *. simpl in *. auto.
Qed.

(** X14: [makeTransformationMap] succeeds exactly on transformations with
    distinct identifiers, and then maps each identifier to its
    transformation and nothing else; otherwise its error names the first
    identifier that comes a second time. *)
Theorem makeTransformationMap_spec (ts : list Transformation) :
  match makeTransformationMap ts with
  | inr m =>
      NoDup (map Transformation_GetBind ts) /\
      forall name t, m !! name = Some t <-> In t ts /\ Transformation_GetBind t = name
  | inl err =>
      exists pre t post,
        ts = pre ++ t :: post /\
        err = ErrDuplicateTransformation (Transformation_GetBind t) /\
        NoDup (map Transformation_GetBind pre) /\
        In (Transformation_GetBind t) (map Transformation_GetBind pre)
  end.
Proof.
  unfold makeTransformationMap.
  apply (makeTransformationMap_loop_spec ts [] ∅).
  - intros name t. rewrite lookup_empty. split; [discriminate | intros [[] _]].
  - constructor.
Qed.

Lemma find_app_first {A} (f : A -> bool) (l l' : list A) :
  List.find f (l ++ l') =
  match List.find f l with Some x => Some x | None => List.find f l' end.
Proof. induction l as [|a l IH]; simpl; [reflexivity|]. now destruct (f a). Qed.

Lemma getNocPaths_fold (l : list NocPath) (m : gmap string NocPath) (name : string) :
  fold_left
    (fun paths nocPath =>
       let pathName := NocPath_GetBind nocPath in
       if String.eqb pathName "" then paths else <[pathName := nocPath]> paths) l m !! name =
  if String.eqb name "" then m !! name
  else match List.find (fun p => String.eqb (NocPath_GetBind p) name) (rev l) with
       | Some p => Some p
       | None => m !! name
       end.
Proof.
  revert m. induction l as [|p l IH]; intros m; simpl.
  - now destruct (String.eqb name "").
  - rewrite IH. clear IH. destruct (String.eqb name "") eqn:Hname.
    + apply String.eqb_eq in Hname.
      destruct (String.eqb_spec (NocPath_GetBind p) ""); [reflexivity|].
      rewrite lookup_insert_ne; congruence.
    + apply String.eqb_neq in Hname. rewrite find_app_first.
      destruct (List.find _ (rev l)) as [q|]; [reflexivity|]. simpl.
      destruct (String.eqb_spec (NocPath_GetBind p) name) as [Hb | Hb].
      * destruct (String.eqb_spec (NocPath_GetBind p) ""); [congruence|].
        rewrite <- Hb. now rewrite lookup_insert_eq.
      * destruct (String.eqb_spec (NocPath_GetBind p) ""); [reflexivity|].
        now rewrite lookup_insert_ne.
Qed.

(** X15: [getNocPaths] maps an identifier to the last NocPath of the
    transformation that carries it; a NocPath without identifier is left
    out, and the empty identifier maps to nothing. *)
Theorem getNocPaths_spec (t : Transformation) (name : string) :
  getNocPaths t !! name =
  if String.eqb name "" then None
  else List.find (fun p => String.eqb (NocPath_GetBind p) name)
                 (rev (Transformation_GetNocPaths t)).
Proof.
  unfold getNocPaths. rewrite getNocPaths_fold, lookup_empty.
  destruct (String.eqb name ""); [reflexivity|]. now destruct (List.find _ _).
Qed.

(** X16: for a vendor of the table the order of the OIDs of a NocPath does
    not matter: [canResolve] holds exactly when one of them is not under the
    vendor root or starts with the root, a dot and the vendor's
    sub-identifier. *)
Theorem canResolve_known_vendor (o : Orismologer) (nocPath : NocPath)
    (vendor vendorOid : string)
    (Hv : GetVendors (vendorInfo o) !! vendor = Some vendorOid) :
  (canResolve o nocPath vendor = true <->
   exists oid, In oid (NocPath_GetOids nocPath) /\
               admits (GetVendorRoot (vendorInfo o)) vendorOid oid = true) /\
  (forall nocPath',
      Permutation (NocPath_GetOids nocPath) (NocPath_GetOids nocPath') ->
      canResolve o nocPath' vendor = canResolve o nocPath vendor).
Proof.
  unfold canResolve. split.
  - rewrite (canResolve_oids_known _ _ _ _ _ Hv), existsb_exists. reflexivity.
  - intros nocPath' Hperm.
    rewrite !(canResolve_oids_known _ _ _ _ _ Hv).
    apply eq_true_iff_eq. rewrite !existsb_exists.
    split; intros (oid & Hin & Ha); exists oid; split; auto.
    + apply list_elem_of_In. rewrite Hperm. now apply list_elem_of_In.
    + apply list_elem_of_In. rewrite <- Hperm. now apply list_elem_of_In.
Qed.

End RegistryFacts.

Section SelectionFacts.
Import GoStrings oparse orismologer.
Context `{RT : GoRuntime} `{PP : Participle}.

Section Loop.
Variable rec : Transformation -> string -> string -> run value.
Variable o : Orismologer.
Variables target vendor : string.
Variable name : string.
Variable nocPaths : gmap string NocPath.

#[local] Abbreviation eval_expressions := (eval_expressions rec o target vendor name nocPaths).
#[local] Abbreviation abandoned := (abandoned rec o target vendor nocPaths).

Lemma eval_expressions_abandoned (pre : list string) (trs : list (list event))
    (rest : list string) :
  Forall2 abandoned pre trs ->
  eval_expressions (pre ++ rest) = after (abandoned_trace pre trs) (eval_expressions rest).
Proof.
  induction 1 as [|e tr pre trs He _ IH].
  - simpl. unfold after. now destruct (eval_expressions rest).
  - change ((e :: pre) ++ rest) with (e :: (pre ++ rest)).
    destruct He as [(err & Hp & ->) | (expression & variables & fns & err & Hp & Hv)].
    + rewrite (eval_expressions_invalid rec o target vendor name nocPaths e _ err Hp), IH.
      unfold after. simpl. reflexivity.
    + rewrite (eval_expressions_unresolved rec o target vendor name nocPaths e _
                 expression variables fns err tr Hp Hv), IH.
      unfold after. simpl. now rewrite <- app_assoc.
Qed.

Lemma eval_expressions_first_evaluated (pre : list string) (trs : list (list event))
    (e : string) (post : list string) (expression : Expression)
    (variables fns : list string) (values : Context) (tr : list event) :
  Forall2 abandoned pre trs ->
  parseAndValidateExpression o e = inr (expression, variables, fns) ->
  evalVariables_with rec o target vendor variables nocPaths = (Some (Ok values), tr) ->
  eval_expressions (pre ++ e :: post) =
  (Some (oparse.Eval values (Call (functions o)) expression),
   abandoned_trace pre trs ++ EvParse e :: tr).
Proof.
  intros Hpre Hp Hv. rewrite (eval_expressions_abandoned pre trs _ Hpre).
  now rewrite (eval_expressions_evaluated rec o target vendor name nocPaths e post
                 expression variables fns values tr Hp Hv).
Qed.

Lemma eval_expressions_none_evaluable (es : list string) (trs : list (list event)) :
  Forall2 abandoned es trs ->
  eval_expressions es = (Some (Err (ErrNoneEvaluable name)), abandoned_trace es trs).
Proof.
  intros Hes.
  rewrite <- (app_nil_r es) at 1. rewrite (eval_expressions_abandoned es trs [] Hes).
  unfold after. simpl. now rewrite app_nil_r.
Qed.

End Loop.

(** X17: [eval] returns what the first alternative that gets as far as its
    evaluation evaluates to, value or error: the alternatives before it were
    abandoned, at the parser, at the function library or at a variable, and
    those after it are neither parsed nor resolved, whatever they are. *)
Theorem eval_first_evaluated (fuel : nat) (o : Orismologer) (t : Transformation)
    (target vendor : string) (pre : list string) (trs : list (list event)) (e : string)
    (post : list string) (expression : Expression) (variables fns : list string)
    (values : Context) (tr : list event) :
  Transformation_GetExpressions t = pre ++ e :: post ->
  Forall2 (abandoned (fun t target vendor => eval fuel o t target vendor)
                     o target vendor (getNocPaths t)) pre trs ->
  parseAndValidateExpression o e = inr (expression, variables, fns) ->
  evalVariables fuel o variables (getNocPaths t) target vendor = (Some (Ok values), tr) ->
  eval (S fuel) o t target vendor =
  (Some (oparse.Eval values (Call (functions o)) expression),
   abandoned_trace pre trs ++ EvParse e :: tr).
Proof.
  intros He Hpre Hp Hv. simpl. unfold eval_with. rewrite He.
  now apply eval_expressions_first_evaluated with (variables := variables) (fns := fns).
Qed.

(** X18: when every alternative of a transformation is abandoned, [eval]
    returns the error that names the transformation, after it has gone
    through all of them in the order of the declaration; so it does at once
    for a transformation without expressions. *)
Theorem eval_none_evaluable (fuel : nat) (o : Orismologer) (t : Transformation)
    (target vendor : string) (trs : list (list event)) :
  Forall2 (abandoned (fun t target vendor => eval fuel o t target vendor)
                     o target vendor (getNocPaths t))
          (Transformation_GetExpressions t) trs ->
  eval (S fuel) o t target vendor =
  (Some (Err (ErrNoneEvaluable (Transformation_GetBind t))),
   abandoned_trace (Transformation_GetExpressions t) trs).
Proof.
  intros Hes. simpl. unfold eval_with. now apply eval_expressions_none_evaluable.
Qed.

(** *** Variables *)

Lemma evalVariables_loop_leaves rec rec' (o : Orismologer) (ts : transformationMap)
    (target vendor : string) nocPaths variables values :
  (forall x, In x variables -> is_Some (nocPaths !! x)) ->
  evalVariables_loop rec o target vendor nocPaths variables values =
  evalVariables_loop rec' (with_transformations o ts) target vendor nocPaths variables values.
Proof.
  revert values. induction variables as [|x xs IH]; intros values Hall; [reflexivity|].
  simpl. destruct (Hall x (or_introl eq_refl)) as [nocPath ->].
  change (handleNocPath (with_transformations o ts) nocPath target vendor)
    with (handleNocPath o nocPath target vendor).
  destruct (handleNocPath o nocPath target vendor) as [[err|val] tr]; [reflexivity|].
  rewrite IH; [reflexivity|]. intros y Hy. apply Hall. now right.
Qed.

(** X19: a variable that names a NocPath of the transformation is that
    NocPath, also when a transformation has the same name: when all the
    variables of an expression are NocPaths of the transformation, what
    [evalVariables] returns depends neither on the transformations of the
    engine nor on what [eval] does on them. *)
Theorem NocPaths_shadow_transformations (fuel fuel' : nat) (o : Orismologer)
    (ts : transformationMap) (target vendor : string) (nocPaths : gmap string NocPath)
    (variables : list string) :
  (forall x, In x variables -> is_Some (nocPaths !! x)) ->
  evalVariables fuel o variables nocPaths target vendor =
  evalVariables fuel' (with_transformations o ts) variables nocPaths target vendor.
Proof. intros Hall. unfold evalVariables, evalVariables_with. now apply evalVariables_loop_leaves. Qed.

(** *** Resolver calls *)

Lemma handleNocPath_requested (o : Orismologer) (nocPath : NocPath) (target vendor : string) :
  Forall (requested_event o target vendor) (handleNocPath o nocPath target vendor).2.
Proof.
  unfold handleNocPath.
  destruct (canResolve o nocPath vendor) eqn:Hc; simpl; [|constructor].
  destruct (nocPathResolver o nocPath target); simpl; repeat constructor; exact Hc.
Qed.

Lemma evalVariables_loop_requested rec (o : Orismologer) (target vendor : string)
    nocPaths variables values :
  (forall t, Forall (requested_event o target vendor) (rec t target vendor).2) ->
  Forall (requested_event o target vendor)
         (evalVariables_loop rec o target vendor nocPaths variables values).2.
Proof.
  intros Hrec. revert values. induction variables as [|x xs IH]; intros values; simpl.
  - constructor.
  - destruct (nocPaths !! x) as [nocPath|].
    + pose proof (handleNocPath_requested o nocPath target vendor) as Hh.
      destruct (handleNocPath o nocPath target vendor) as [[err|val] tr]; simpl in *;
        [exact Hh|]. apply Forall_app. split; [exact Hh | apply IH].
    + destruct (transformations o !! x) as [t|]; [|constructor].
      pose proof (Hrec t) as Hr.
      destruct (rec t target vendor) as [[[val|err|c]|] tr]; simpl in *; try exact Hr.
      apply Forall_app. split; [exact Hr | apply IH].
Qed.

Lemma eval_expressions_requested rec (o : Orismologer) (target vendor : string)
    name nocPaths expressions :
  (forall t, Forall (requested_event o target vendor) (rec t target vendor).2) ->
  Forall (requested_event o target vendor)
         (orismologer.eval_expressions rec o target vendor name nocPaths expressions).2.
Proof.
  intros Hrec. induction expressions as [|e es IH]; simpl; [constructor|].
  constructor; [exact I|].
  destruct (parseAndValidateExpression o e) as [err|[[expression variables] fns]];
    [exact IH|].
  unfold evalVariables_with.
  pose proof (evalVariables_loop_requested rec o target vendor nocPaths variables ∅ Hrec) as Hv.
  destruct (evalVariables_loop rec o target vendor nocPaths variables ∅)
    as [[[values|err|c]|] tr]; simpl in *; try exact Hv.
  apply Forall_app. split; [exact Hv | exact IH].
Qed.

(** X20: whatever the transformations are, every call of the resolver that
    an evaluation makes is for the target of the request and on a NocPath
    that [canResolve] admits for the vendor of the request. *)
Theorem eval_resolves_as_requested (fuel : nat) (o : Orismologer) (t : Transformation)
    (target vendor : string) (nocPath : NocPath) (target' : string) :
  In (EvResolve nocPath target') (eval fuel o t target vendor).2 ->
  target' = target /\ canResolve o nocPath vendor = true.
Proof.
  assert (Hall : forall fuel t,
             Forall (requested_event o target vendor) (eval fuel o t target vendor).2).
  { clear. intros fuel. induction fuel as [|fuel IH]; intros t; simpl; [constructor|].
    apply eval_expressions_requested. exact IH. }
  intros Hin. specialize (Hall fuel t). rewrite List.Forall_forall in Hall.
  exact (Hall _ Hin).
Qed.

End SelectionFacts.

(** ** Edge weights *)

Section WeightFacts.
Import octree.

Lemma weight_AddNode (g : AdjList) (n : string) : weight (AddNode g n) = weight g.
Proof. unfold AddNode. now destruct (edges g !! n). Qed.

(** X21: [AddWeightedEdge] sets the weight of the edge, also of an edge
    that is there already, whose weight it replaces, and keeps every other
    weight; [AddNode] changes no weight, and in the new graph every weight
    reads 0. *)
Theorem AddWeightedEdge_weight (g : AdjList) (a z : string) (w : Z) :
  (forall a' z',
      Weight (AddWeightedEdge g a z w) a' z' =
      if decide ((a', z') = (a, z)) then w else Weight g a' z') /\
  (forall n a' z', Weight (AddNode g n) a' z' = Weight g a' z') /\
  (forall a' z', Weight NewAdjList a' z' = 0%Z).
Proof.
  split; [|split].
  - intros a' z'. unfold Weight, AddWeightedEdge.
    assert (Hw : forall g', weight (if existsb (String.eqb z) (Neighbors g' a) then g'
                                    else {| nodes := nodes g';
                                            edges := <[a := Neighbors g' a ++ [z]]> (edges g');
                                            weight := weight g' |}) = weight g')
      by (intros g'; now destruct (existsb _ _)).
    rewrite Hw. simpl. rewrite !weight_AddNode.
    destruct (decide ((a', z') = (a, z))) as [-> | Hne].
    + now rewrite lookup_insert_eq.
    + now rewrite lookup_insert_ne by congruence.
  - intros n a' z'. unfold Weight. now rewrite weight_AddNode.
  - reflexivity.
Qed.

End WeightFacts.

(** ** The function library *)

Section FunctionsFacts.
Import oparse functions.
Context `{GL : GoLibraries}.
#[local] Open Scope Z_scope.

(** X22: [toStr] accepts the strings only. [toInt] returns the integer of
    a string that [strconv.Atoi] converts, and an [int] itself; [toFloat]
    the float of a string that [strconv.ParseFloat] converts, and a
    [float64] itself. On every other value they are errors: so is [toInt]
    on a [float64], which is what a number written in an expression is,
    and [toFloat] on an [int]. *)
Theorem conversions_accept (v : value) :
  (forall s, toStr v = inr s <-> v = VString s) /\
  (forall i, toInt v = inr i <->
             (exists s, v = VString s /\ Atoi s = Some i) \/ v = VInt i) /\
  (forall x, toFloat v = inr x <->
             (exists s, v = VString s /\ ParseFloat s 64 = Some x) \/ v = VFloat x) /\
  (forall f, toInt (VFloat f) = inl (ErrNotInt (VFloat f))) /\
  (forall i, toFloat (VInt i) = inl (ErrNotFloat (VInt i))).
Proof.
  split; [|split; [|split; [|split]]].
  - intros s. unfold toStr. destruct v; split; try discriminate; now intros [= ->].
  - intros i. unfold toInt, toStr. split.
    + destruct v as [j|f|s| |text]; simpl; try discriminate.
      * intros [= ->]. now right.
      * destruct (Atoi s) as [k|] eqn:Hs; [|discriminate].
        intros [= ->]. left. now exists s.
    + intros [(s & -> & Hs) | ->]; simpl; [now rewrite Hs | reflexivity].
  - intros x. unfold toFloat, toStr. split.
    + destruct v as [j|f|s| |text]; simpl; try discriminate.
      * intros [= ->]. now right.
      * destruct (ParseFloat s 64) as [k|] eqn:Hs; [|discriminate].
        intros [= ->]. left. now exists s.
    + intros [(s & -> & Hs) | ->]; simpl; [now rewrite Hs | reflexivity].
  - reflexivity.
  - reflexivity.
Qed.

Lemma int64_small (z : Z) : - 2 ^ 63 <= z < 2 ^ 63 -> int64 z = z.
Proof. intros Hz. unfold int64. rewrite Z.mod_small; lia. Qed.

Lemma int64_uint64 (z : Z) : int64 (uint64 z) = int64 z.
Proof. unfold int64, uint64. now rewrite Z.add_mod_idemp_l by lia. Qed.

Lemma fraction_nanos (n : Z) :
  0 <= n ->
  Z.shiftr (uint64 (Z.land n 0x00000000ffffffff * 1000000000)) 32 =
  (n mod 2 ^ 32) * 1000000000 / 2 ^ 32 /\
  0 <= (n mod 2 ^ 32) * 1000000000 / 2 ^ 32 < 1000000000.
Proof.
  intros Hn.
  change 0x00000000ffffffff with (Z.ones 32). rewrite Z.land_ones by lia.
  pose proof (Z.mod_pos_bound n (2 ^ 32) ltac:(lia)) as Hf.
  unfold uint64. rewrite Z.mod_small by lia.
  rewrite Z.shiftr_div_pow2 by lia. split; [reflexivity|]. split.
  - apply Z.div_pos; lia.
  - apply Z.div_lt_upper_bound; lia.
Qed.

Section Ntp.

(** What the package relies on of [time.Unix], [Time.Unix] and
    [Time.UnixNano]. *)
Hypothesis Unix_Unix : forall sec nsec,
  - 2 ^ 63 <= sec < 2 ^ 63 -> 0 <= nsec < 1000000000 ->
  Time_Unix (time_Unix sec nsec) = sec.
Hypothesis Unix_UnixNano : forall sec nsec,
  - 2 ^ 63 <= sec < 2 ^ 63 -> 0 <= nsec < 1000000000 ->
  Time_UnixNano (time_Unix sec nsec) = int64 (sec * 1000000000 + nsec).

Variable timeStamp : string.
Variable ntp : Z.
Variable err : option string.
Hypothesis ParseUint_ntp : ParseUint (GoStrings.remove_byte " " timeStamp) 16 64 = (ntp, err).
Hypothesis ntp_range : 0 <= ntp < 2 ^ 64.

Lemma ntp_seconds_range :
  int64 (uint64 (Z.shiftr ntp 32 - offset)) = ntp / 2 ^ 32 - offset /\
  - offset <= ntp / 2 ^ 32 - offset < 2 ^ 32 - offset.
Proof.
  rewrite Z.shiftr_div_pow2 by lia.
  assert (0 <= ntp / 2 ^ 32 < 2 ^ 32).
  { split; [apply Z.div_pos; lia | apply Z.div_lt_upper_bound; lia]. }
  unfold offset in *. rewrite int64_uint64, int64_small by lia. lia.
Qed.

Lemma ntpTime_eq :
  ntpTime timeStamp =
  (match err with Some text => [text] | None => [] end,
   time_Unix (ntp / 2 ^ 32 - offset) ((ntp mod 2 ^ 32) * 1000000000 / 2 ^ 32)).
Proof.
  unfold ntpTime. rewrite ParseUint_ntp.
  destruct ntp_seconds_range as [-> _].
  destruct (fraction_nanos ntp ltac:(lia)) as [-> Hn].
  rewrite (int64_small (_ / _)) by lia. reflexivity.
Qed.

(** X23: in seconds, an NTP stamp is the number in its first 32 bits less
    the 2208988800 seconds from 1900 to 1970, negative before 1970: the
    wrap-around of the unsigned subtraction is undone by the conversion.
    Spaces in the stamp do not count, and no stamp is an error: what
    [ParseUint] rejects is printed and converted as the number returned
    with the error. *)
Theorem ntp_seconds :
  timeSinceEpoch (VString timeStamp) "ntp" "s" =
  (match err with Some text => [text] | None => [] end,
   inr (ntp / 2 ^ 32 - 2208988800)).
Proof.
  unfold timeSinceEpoch. simpl (String.eqb "ntp" "ntp"). cbv iota.
  rewrite ntpTime_eq. unfold inUnits. simpl (String.eqb "s" "s"). cbv iota.
  destruct ntp_seconds_range as [_ Hs]. destruct (fraction_nanos ntp ltac:(lia)) as [_ Hn].
  unfold offset in *. rewrite Unix_Unix by lia. reflexivity.
Qed.

(** X24: in nanoseconds, an NTP stamp is its seconds times 10^9 plus the
    last 32 bits as a binary fraction of 10^9, rounded down, without
    overflow; in milliseconds it is that number divided by 10^6 and
    truncated towards zero. *)
Theorem ntp_nanoseconds :
  let nanoseconds :=
    (ntp / 2 ^ 32 - 2208988800) * 1000000000 + (ntp mod 2 ^ 32) * 1000000000 / 2 ^ 32 in
  timeSinceEpoch (VString timeStamp) "ntp" "ns" =
  (match err with Some text => [text] | None => [] end, inr nanoseconds) /\
  timeSinceEpoch (VString timeStamp) "ntp" "ms" =
  (match err with Some text => [text] | None => [] end,
   inr (Z.quot nanoseconds 1000000)) /\
  - 2 ^ 63 <= nanoseconds < 2 ^ 63.
Proof.
  intros nanoseconds.
  destruct ntp_seconds_range as [_ Hs]. destruct (fraction_nanos ntp ltac:(lia)) as [_ Hn].
  assert (Hr : - 2 ^ 63 <= nanoseconds < 2 ^ 63) by (unfold nanoseconds, offset in *; lia).
  assert (Ht : Time_UnixNano (time_Unix (ntp / 2 ^ 32 - offset)
                                        ((ntp mod 2 ^ 32) * 1000000000 / 2 ^ 32))
               = nanoseconds).
  { unfold offset in *. rewrite Unix_UnixNano by lia. now apply int64_small. }
  split; [|split; [|exact Hr]].
  - unfold timeSinceEpoch. simpl (String.eqb "ntp" "ntp"). cbv iota.
    rewrite ntpTime_eq. unfold inUnits.
    change (String.eqb "ns" "s") with false. change (String.eqb "ns" "ms") with false.
    change (String.eqb "ns" "ns") with true. cbv iota. now rewrite Ht.
  - unfold timeSinceEpoch. simpl (String.eqb "ntp" "ntp"). cbv iota.
    rewrite ntpTime_eq. unfold inUnits.
    change (String.eqb "ms" "s") with false. change (String.eqb "ms" "ms") with true.
    cbv iota. now rewrite Ht.
Qed.

End Ntp.

(** X25: [timeSinceEpoch] returns an error in three cases only: the value
    is not a string; the format is not ["ntp"] and [time.Parse] rejects
    the stamp, for the layout [time.RFC3339] when the format is
    ["rfc3339"]; the units are none of ["s"], ["ms"] and ["ns"]. The units
    are looked at last, and an NTP stamp is never rejected. *)
Theorem timeSinceEpoch_fails_iff (v : value) (format units : string) :
  (exists e, (timeSinceEpoch v format units).2 = inl e) <->
  (forall s, v <> VString s) \/
  (exists s cause, v = VString s /\ format <> "ntp"%string /\
     time_Parse (if String.eqb format "rfc3339" then RFC3339 else format) s = inl cause) \/
  (units <> "s" /\ units <> "ms" /\ units <> "ns")%string.
Proof.
  assert (Hu : forall t, (exists e, inUnits t units = inl e) <->
                         (units <> "s" /\ units <> "ms" /\ units <> "ns")%string).
  { intros t. unfold inUnits.
    destruct (String.eqb_spec units "s") as [-> | H1].
    { split; [intros [? [=]] | intros (H & _); now destruct H]. }
    destruct (String.eqb_spec units "ms") as [-> | H2].
    { split; [intros [? [=]] | intros (_ & H & _); now destruct H]. }
    destruct (String.eqb_spec units "ns") as [-> | H3].
    { split; [intros [? [=]] | intros (_ & _ & H); now destruct H]. }
    split; [now intros _ | intros _; eauto]. }
  unfold timeSinceEpoch.
  destruct v as [j|f|s| |text];
    try (split; [intros _; left; intros s; discriminate | intros _; simpl; eauto]).
  destruct (String.eqb_spec format "ntp") as [-> | Hf].
  - destruct (ntpTime s) as [printed t]. simpl. rewrite Hu. split.
    + intros H. now right; right.
    + intros [H | [(s' & cause & _ & H & _) | H]];
        [now destruct (H s) | now destruct H | exact H].
  - destruct (time_Parse _ s) as [cause|t] eqn:Hp; simpl.
    + split; [|eauto]. intros _. right; left. now exists s, cause.
    + rewrite Hu. split.
      * intros H. now right; right.
      * intros [H | [(s' & cause & [= <-] & _ & H) | H]];
          [now destruct (H s) | congruence | exact H].
Qed.

(** *** Calls by name *)

Lemma all_assignable_length (args : list value) (ts : list paramType) :
  all_assignable args ts = true -> length args = length ts.
Proof.
  revert ts. induction args as [|arg args IH]; intros [|t ts]; simpl; try discriminate.
  - reflexivity.
  - intros [_ H]%andb_true_iff. f_equal. now apply IH.
Qed.

(** X26: [Call] hands the arguments to the function and its two results
    back unchanged, the value with a [nil] error or with the error of the
    function, whenever the function is registered and every argument is
    assignable to its parameter; and it prints what the function prints. *)
Theorem Call_returns_what_the_function_returns (l : Library) (funcName : string)
    (f : function) (args : list value) (printed : list string) (result : output) :
  l !! funcName = Some f ->
  all_assignable args (In_ f) = true ->
  (Call_ f args = (printed, [result; OutValue VNil]) ->
   Library_Call l funcName args = (printed, Returns result None)) /\
  (forall err, Call_ f args = (printed, [result; OutError err]) ->
   Library_Call l funcName args = (printed, Returns result (Some err))).
Proof.
  intros Hf Ha.
  assert (Hc : forall results, Call_ f args = (printed, results) ->
               Library_Call l funcName args = (printed, unwrapOutput results funcName)).
  { intros results Hr. unfold Library_Call, getFunc, Library_Contains. rewrite Hf. simpl.
    rewrite (all_assignable_length _ _ Ha), Nat.eqb_refl. simpl. now rewrite Ha, Hr. }
  split.
  - intros Hr. now rewrite (Hc _ Hr).
  - intros err Hr. now rewrite (Hc _ Hr).
Qed.

(** X27: [Call] panics, in [reflect], exactly when the function is
    registered and gets as many arguments as it has parameters, of which
    one is [nil] or is not a string where the parameter is one; it then
    prints nothing. So does [time_since_epoch] of the package with a number
    for its format. An unknown name and a wrong number of arguments are
    errors, whatever the arguments are. *)
Theorem Call_panics_iff (l : Library) (funcName : string) (args : list value) :
  ((exists printed, Library_Call l funcName args = (printed, PanicReflectCall)) <->
   exists f, l !! funcName = Some f /\ length args = length (In_ f) /\
             all_assignable args (In_ f) = false) /\
  (l !! funcName = None ->
   Library_Call l funcName args =
   ([], Returns (OutValue VNil) (Some (ErrFunctionUndefined funcName)))) /\
  (forall f, l !! funcName = Some f -> length args <> length (In_ f) ->
   Library_Call l funcName args =
   ([], Returns (OutValue VNil)
          (Some (ErrArguments funcName (length (In_ f)) (length args))))) /\
  (forall v x units,
   Library_Call NewLibrary "time_since_epoch" [v; VFloat x; units] = ([], PanicReflectCall)).
Proof.
  split; [|split; [|split]].
  - unfold Library_Call, getFunc, Library_Contains.
    destruct (l !! funcName) as [f|] eqn:Hf; simpl.
    + destruct (Nat.eqb_spec (length args) (length (In_ f))) as [Hlen | Hlen]; simpl.
      * destruct (all_assignable args (In_ f)) eqn:Ha.
        -- destruct (Call_ f args) as [printed results]. split.
           ++ intros [p [= _ Hp]]. unfold unwrapOutput in Hp.
              destruct results as [|r [|[[]|] []]]; discriminate.
           ++ intros (f' & [= <-] & _ & Hx). congruence.
        -- split; [|eauto]. intros _. now exists f.
      * split; [intros [p [=]] | intros (f' & [= <-] & Hx & _); contradiction].
    + split; [intros [p [=]] | intros (f' & [=] & _)].
  - intros Hf. unfold Library_Call, getFunc, Library_Contains. now rewrite Hf.
  - intros f Hf Hlen. unfold Library_Call, getFunc, Library_Contains. rewrite Hf. simpl.
    now destruct (Nat.eqb_spec (length args) (length (In_ f))).
  - intros v x units. unfold Library_Call, getFunc, Library_Contains, NewLibrary, registry.
    rewrite !lookup_insert_ne by discriminate. rewrite lookup_insert_eq. simpl.
    destruct v; reflexivity.
Qed.

End FunctionsFacts.

(** ** The further properties on the examples *)

Section MoreRuns.
Import octree oparse orismologer functions.
#[local] Existing Instance examples.runtime.
#[local] Existing Instance examples.parser.
#[local] Existing Instance examples.libraries.

Lemma graph_operations_keep_wf_witness :
  wf_graph (AddNode NewAdjList "root") /\
  wf_graph (AddEdge NewAdjList "root" "root/a").
Proof.
  pose proof (graph_operations_keep_wf NewAdjList wf_graph_NewAdjList) as (Hn & _ & He).
  split; [apply Hn | apply He].
Defined.

Lemma joinPath_expandPath_witness :
  normalizePath "/a/b" = inr (joinPath ["root"; "a"; "b"]).
Proof.
  apply (joinPath_expandPath "/a/b" ["root"; "a"; "b"]). reflexivity.
Defined.

Lemma expandPath_segments_witness : Forall segment ["root"; "a"; "b"].
Proof.
  apply (expandPath_segments "/a/b" ["root"; "a"; "b"]); [reflexivity | discriminate].
Defined.

Lemma expandPath_joinPath_witness : expandPath "root/a/b" = inr ["root"; "a"; "b"].
Proof.
  apply (expandPath_joinPath ["root"; "a"; "b"]); [|discriminate].
  repeat constructor; discriminate.
Defined.

Lemma Eval_reads_its_identifiers_witness :
  oparse.Eval (<["loop" := VFloat 1]> ∅) examples.no_caller
       (examples.expression_of (examples.term_of (Value_Variable "loop"))) =
  oparse.Eval (<["other" := VString "s"]> (<["loop" := VFloat 1]> ∅))
       (Call examples.one_library)
       (examples.expression_of (examples.term_of (Value_Variable "loop"))).
Proof.
  apply Eval_reads_its_identifiers.
  - intros x [<- | []]. reflexivity.
  - intros f [].
Defined.

Lemma canResolve_known_vendor_witness :
  canResolve (examples.engine_of ∅) examples.avg_cpu_util_oid "cisco" = true <->
  exists oid, In oid (NocPath_GetOids examples.avg_cpu_util_oid) /\
              admits "1.3.6.1.4.1" "9" oid = true.
Proof.
  apply (canResolve_known_vendor (examples.engine_of ∅) examples.avg_cpu_util_oid
           "cisco" "9"). reflexivity.
Defined.

Lemma eval_first_evaluated_witness :
  eval 1 (examples.engine_of ∅) examples.no_oids_then_one "target" "cisco" =
  (Some (oparse.Eval ∅ (Call examples.one_library)
           (examples.expression_of (examples.term_of (Value_Number 1)))),
   [EvParse "no_oids"; EvParse "1"]).
Proof.
  apply (eval_first_evaluated 0 (examples.engine_of ∅) examples.no_oids_then_one
           "target" "cisco" ["no_oids"] [[]] "1" [] _ [] [] ∅ []).
  - reflexivity.
  - constructor; [|constructor]. right.
    exists (examples.expression_of (examples.term_of (Value_Variable "no_oids"))),
      ["no_oids"], [], (ErrUnresolvableNocPath "no_oids" "cisco").
    split; reflexivity.
  - reflexivity.
  - reflexivity.
Defined.

Lemma eval_none_evaluable_witness :
  eval 1 (examples.engine_of ∅) examples.only_no_oids "target" "cisco" =
  (Some (Err (ErrNoneEvaluable "only_no_oids")), [EvParse "no_oids"]).
Proof.
  apply (eval_none_evaluable 0 (examples.engine_of ∅) examples.only_no_oids
           "target" "cisco" [[]]).
  constructor; [|constructor]. right.
  exists (examples.expression_of (examples.term_of (Value_Variable "no_oids"))),
    ["no_oids"], [], (ErrUnresolvableNocPath "no_oids" "cisco").
  split; reflexivity.
Defined.

Lemma NocPaths_shadow_transformations_witness :
  evalVariables 0 (examples.engine_of ∅) ["loop"]
                (getNocPaths examples.reads_standard_mib) "target" "cisco" =
  evalVariables 1 (with_transformations (examples.engine_of ∅) {["loop" := examples.loop]})
                ["loop"] (getNocPaths examples.reads_standard_mib) "target" "cisco".
Proof.
  apply NocPaths_shadow_transformations.
  intros x [<- | []]. exists examples.standard_mib. reflexivity.
Defined.

Lemma eval_resolves_as_requested_witness :
  "target" = "target" /\
  canResolve (examples.engine_of ∅) examples.standard_mib "cisco" = true.
Proof.
  apply (eval_resolves_as_requested 1 (examples.engine_of ∅) examples.reads_standard_mib
           "target" "cisco" examples.standard_mib "target").
  right. left. reflexivity.
Defined.

Lemma libraries_Unix_Unix (sec nsec : Z) :
  (- 2 ^ 63 <= sec < 2 ^ 63)%Z -> (0 <= nsec < 1000000000)%Z ->
  Time_Unix (time_Unix sec nsec) = sec.
Proof.
  intros _ Hn. simpl. unfold examples.Unix_seconds.
  destruct (Z.ltb_spec nsec 0); [lia|].
  destruct (Z.leb_spec 1000000000 nsec); [lia|]. reflexivity.
Qed.

Lemma libraries_Unix_UnixNano (sec nsec : Z) :
  (- 2 ^ 63 <= sec < 2 ^ 63)%Z -> (0 <= nsec < 1000000000)%Z ->
  Time_UnixNano (time_Unix sec nsec) = int64 (sec * 1000000000 + nsec).
Proof.
  intros _ Hn. simpl. unfold examples.Unix_seconds.
  destruct (Z.ltb_spec nsec 0); [lia|].
  destruct (Z.leb_spec 1000000000 nsec); [lia|]. reflexivity.
Qed.

Lemma ntp_seconds_witness :
  timeSinceEpoch (VString "dfc4 0b68 8147 af78") "ntp" "s" = ([], inr 1545178344%Z).
Proof.
  apply (ntp_seconds libraries_Unix_Unix "dfc4 0b68 8147 af78"
           0xdfc40b688147af78%Z None); [reflexivity | lia].
Defined.

Lemma ntp_nanoseconds_witness :
  timeSinceEpoch (VString "dfc4 0b68 8147 af78") "ntp" "ns" =
    ([], inr 1545178344505000082%Z) /\
  timeSinceEpoch (VString "dfc4 0b68 8147 af78") "ntp" "ms" =
    ([], inr 1545178344505%Z).
Proof.
  pose proof (ntp_nanoseconds libraries_Unix_UnixNano "dfc4 0b68 8147 af78"
                0xdfc40b688147af78%Z None eq_refl ltac:(lia)) as (Hns & Hms & _).
  split; [exact Hns | exact Hms].
Defined.

Lemma Call_returns_what_the_function_returns_witness :
  Library_Call NewLibrary "to_int" [VString "10"] =
    ([], Returns (OutValue (VInt 10)) None) /\
  Library_Call NewLibrary "to_int" [VFloat 10] =
    ([], Returns (OutValue (VInt 0)) (Some (ErrNotInt (VFloat 10)))).
Proof.
  split.
  - eapply (Call_returns_what_the_function_returns NewLibrary "to_int" _ [VString "10"]);
      reflexivity.
  - eapply (Call_returns_what_the_function_returns NewLibrary "to_int" _ [VFloat 10]);
      reflexivity.
Defined.

End MoreRuns.
